(** * Agent Bridge: the coordination store of [bridge.py]

    A shallow embedding of the lease (file lock) and message life-cycle
    operations of [bridge.py], and of the tool dispatch of
    [mcp_server.py], followed by the properties of the coordination
    state machine.

    Modelling conventions.

    - The SQLite database is an explicit value [DB] that every operation
      receives and returns: [get_db] opens the same file each time, and
      every operation commits before it returns.
    - Each evaluation of [datetime.utcnow()] is a separate reading of the
      wall clock.  An operation takes its readings as arguments, in the
      order in which the source evaluates them; nothing is assumed about
      two readings unless a statement says so.
    - A point in time is an integer number of microseconds.  The columns
      [read_at], [ack_at] and [expires_at] hold [isoformat()] text and are
      compared as text by SQLite; for fixed-width ISO-8601 text this
      order is the chronological one, so [Z] with its order stands for the
      text.
    - [lock_file] computes its expiry through [timestamp()], a float sum
      and [fromtimestamp()].  [lock_file] below is the function with the
      expiry that this gives when the round trip is exact, the first clock
      reading plus the time to live.  [lock_file_call] is the function as
      it is called: its expiry is what [expiry_of] gives, a parameter,
      which may be off the exact sum (float rounding, a daylight-saving
      jump of the local zone) and may raise (a date outside the years that
      [datetime] can hold); the two agree where the expiry is the exact
      sum.  In the same way [fetch_inbox], [mark_read] and [ack_message]
      say what the statements do, and the functions with [_call] in their
      name add the exception for an integer that cannot be bound.
    - [created_at] is filled by SQLite's [CURRENT_TIMESTAMP], which has a
      resolution of one second.
    - Row identifiers stay below SQLite's largest rowid, and strings are
      text that can be encoded as UTF-8.
    - The memory store ([remember], [recall], [forget]) has a table of
      its own, kept beside [DB] in [Store].  SHA-256, [json.dumps] and
      SQLite's [LIKE] are not defined in the source; they are the fields
      of the class [Library], and every statement holds for all of them.
    - The server and the command line are modelled for requests whose
      arguments have the types that [TOOLS] declares, after the line has
      been decoded; reading, decoding and printing are left out. *)

From Stdlib Require Import ZArith Lia.
From stdpp Require Import gmap strings list fin_maps sorting pretty.

Local Open Scope Z_scope.

(** ** Data model: the tables created by [get_db] *)

Definition Time := Z.

(** A row of [messages]. *)
Record message := Message {
  msg_id : Z;
  msg_sender : string;
  msg_recipient : string;
  msg_subject : string;
  msg_body : string;
  msg_thread_id : option string;
  msg_created_at : Z;
  msg_read_at : option Time;
  msg_ack_at : option Time
}.

(** A row of [agents]; the primary key [name] is the key of the map. *)
Record agent_row := AgentRow {
  agent_program : string;
  agent_model : string;
  agent_task : string;
  agent_last_seen : Time
}.

(** A row of [file_locks]; the primary key [path] is the key of the map. *)
Record file_lock := FileLock {
  lock_agent : string;
  lock_reason : string;
  lock_expires_at : Time
}.

(** The database.  [messages] is kept in rowid order; [messages_seq] is
    the entry that [AUTOINCREMENT] keeps for the table in
    [sqlite_sequence]. *)
Record DB := MkDB {
  messages : list message;
  messages_seq : Z;
  agents : gmap string agent_row;
  file_locks : gmap string file_lock
}.

Definition empty_db : DB := MkDB [] 0 ∅ ∅.

Global Instance message_eq_dec : EqDecision message.
Proof. solve_decision. Defined.
Global Instance file_lock_eq_dec : EqDecision file_lock.
Proof. solve_decision. Defined.

Definition set_messages (rows : list message) (db : DB) : DB :=
  MkDB rows (messages_seq db) (agents db) (file_locks db).

Definition set_file_locks (locks : gmap string file_lock) (db : DB) : DB :=
  MkDB (messages db) (messages_seq db) (agents db) locks.

Definition set_agents (rows : gmap string agent_row) (db : DB) : DB :=
  MkDB (messages db) (messages_seq db) rows (file_locks db).

(** ** Results: the dictionaries the operations return *)

Inductive response :=
| Registered (name : string)
| Sent (id : Z)
| Read (id : Z)
| Acknowledged (id : Z)
| Locked (path : string) (expires_at : Time)
| Conflict (holder : string) (path : string)
| Unlocked (path : string)
| Inbox (rows : list message)
| Locks (rows : list (string * file_lock)).

(** The ["status"] entry of a result dictionary; the two listings return
    bare lists, which have none. *)
Definition status (r : response) : option string :=
  match r with
  | Registered _ => Some "registered"%string
  | Sent _ => Some "sent"%string
  | Read _ => Some "read"%string
  | Acknowledged _ => Some "acknowledged"%string
  | Locked _ _ => Some "locked"%string
  | Conflict _ _ => Some "conflict"%string
  | Unlocked _ => Some "unlocked"%string
  | Inbox _ | Locks _ => None
  end.

(** ** Agent registration *)

Definition register_agent (now : Time) (name program model task : string)
    (db : DB) : DB * response :=
  (set_agents (<[name := AgentRow program model task now]> (agents db)) db,
   Registered name).

(** ** Messaging *)

(** The largest rowid of the table, [None] when it is empty. *)
Definition max_rowid (rows : list message) : option Z :=
  foldr (λ m acc, Some (match acc with
                        | None => msg_id m
                        | Some k => Z.max (msg_id m) k
                        end)) None rows.

(** The rowid [INTEGER PRIMARY KEY AUTOINCREMENT] gives the next row: one
    more than the largest rowid in the table (1 for an empty table), and
    at least one more than the recorded sequence value. *)
Definition new_rowid (db : DB) : Z :=
  Z.max (match max_rowid (messages db) with
         | None => 1
         | Some k => k + 1
         end)
        (messages_seq db + 1).

(** [now] is the store's clock reading for [CURRENT_TIMESTAMP], which
    keeps whole seconds. *)
Definition send_message (now : Time) (sender recipient subject body : string)
    (thread_id : option string) (db : DB) : DB * response :=
  let rowid := new_rowid db in
  let row := Message rowid sender recipient subject body thread_id
                     (now `div` 1000000) None None in
  (MkDB (messages db ++ [row]) rowid (agents db) (file_locks db), Sent rowid).

(** [ORDER BY created_at DESC]: the later row comes first. *)
Definition newer_first (a b : message) : Prop :=
  msg_created_at b ≤ msg_created_at a.

Global Instance newer_first_dec a b : Decision (newer_first a b).
Proof. unfold newer_first. apply _. Defined.

Global Instance newer_first_total : Total newer_first.
Proof. intros a b. unfold newer_first. lia. Qed.

Global Instance newer_first_trans : Transitive newer_first.
Proof. intros a b c. unfold newer_first. lia. Qed.

(** The sort of [ORDER BY created_at DESC] as SQLite runs it over the
    table, which it scans in rowid order: a row goes in front of the rows
    that are not newer than it, so rows with the same [created_at], which
    counts whole seconds, stay in the order of the scan, the one sent
    first in front. *)
Fixpoint insert_newer (x : message) (sorted : list message) : list message :=
  match sorted with
  | [] => [x]
  | y :: rest =>
      if decide (msg_created_at y ≤ msg_created_at x)
      then x :: sorted
      else y :: insert_newer x rest
  end.

Definition order_by_created_at (rows : list message) : list message :=
  foldr insert_newer [] rows.

(** [LIMIT ?]: SQLite puts no upper bound on the rows when the value is
    negative. *)
Definition sql_limit {A} (limit : Z) (rows : list A) : list A :=
  if decide (limit < 0) then rows else take (Z.to_nat limit) rows.

Definition fetch_inbox (agent : string) (unread_only : bool) (limit : Z)
    (db : DB) : list message :=
  let rows := filter (λ m, msg_recipient m = agent) (messages db) in
  let rows := if unread_only
              then filter (λ m, msg_read_at m = None) rows
              else rows in
  sql_limit limit (order_by_created_at rows).

(** The defaults of the signature: [unread_only=True], [limit=20]. *)
Definition fetch_inbox_default (agent : string) (db : DB) : list message :=
  fetch_inbox agent true 20 db.

(** The [WHERE id = ? AND recipient = ?] clause of both updates. *)
Definition addressed (message_id : Z) (agent : string) (m : message) : Prop :=
  msg_id m = message_id ∧ msg_recipient m = agent.

Global Instance addressed_dec message_id agent m :
  Decision (addressed message_id agent m).
Proof. unfold addressed. apply _. Defined.

(** [SET read_at = ?] *)
Definition set_read (now : Time) (m : message) : message :=
  Message (msg_id m) (msg_sender m) (msg_recipient m) (msg_subject m)
          (msg_body m) (msg_thread_id m) (msg_created_at m)
          (Some now) (msg_ack_at m).

(** [SET ack_at = ?, read_at = COALESCE(read_at, ?)]; the two parameters
    are bound to two clock readings. *)
Definition set_ack (now1 now2 : Time) (m : message) : message :=
  Message (msg_id m) (msg_sender m) (msg_recipient m) (msg_subject m)
          (msg_body m) (msg_thread_id m) (msg_created_at m)
          (Some (default now2 (msg_read_at m))) (Some now1).

(** [UPDATE messages SET ... WHERE ...] *)
Definition sql_update (cond : message → Prop) `{∀ m, Decision (cond m)}
    (f : message → message) (rows : list message) : list message :=
  (λ m, if decide (cond m) then f m else m) <$> rows.

Definition mark_read (now : Time) (message_id : Z) (agent : string)
    (db : DB) : DB * response :=
  (set_messages (sql_update (addressed message_id agent) (set_read now)
                            (messages db)) db,
   Read message_id).

Definition ack_message (now1 now2 : Time) (message_id : Z) (agent : string)
    (db : DB) : DB * response :=
  (set_messages (sql_update (addressed message_id agent) (set_ack now1 now2)
                            (messages db)) db,
   Acknowledged message_id).

(** ** File locks *)

(** [ttl_seconds] in the unit of [Time]. *)
Definition micros (seconds : Z) : Z := seconds * 1000000.

(** [SELECT * FROM file_locks WHERE path = ? AND expires_at > ?] with
    [fetchone()]. *)
Definition live_lock (path : string) (now : Time) (db : DB) : option file_lock :=
  match file_locks db !! path with
  | Some row => if decide (now < lock_expires_at row) then Some row else None
  | None => None
  end.

(** [now1] is the reading the expiry is computed from, [now2] the reading
    the existing row is checked against. *)
Definition lock_file (now1 now2 : Time) (path agent reason : string)
    (ttl_seconds : Z) (db : DB) : DB * response :=
  let expires := now1 + micros ttl_seconds in
  let upsert :=
    (set_file_locks (<[path := FileLock agent reason expires]> (file_locks db)) db,
     Locked path expires) in
  match live_lock path now2 db with
  | Some existing =>
      if decide (lock_agent existing ≠ agent)
      then (db, Conflict (lock_agent existing) path)
      else upsert
  | None => upsert
  end.

(** [DELETE FROM file_locks WHERE path = ? AND agent = ?] *)
Definition unlock_file (path agent : string) (db : DB) : DB * response :=
  (set_file_locks
     (filter (λ kv, ¬ (kv.1 = path ∧ lock_agent kv.2 = agent)) (file_locks db))
     db,
   Unlocked path).

(** [if agent:] is false for [None] and for the empty string. *)
Definition list_locks (agent : option string) (now : Time) (db : DB)
    : list (string * file_lock) :=
  match agent with
  | Some a =>
      if decide (a = EmptyString)
      then map_to_list (filter (λ kv, now < lock_expires_at kv.2) (file_locks db))
      else map_to_list (filter (λ kv, lock_agent kv.2 = a ∧ now < lock_expires_at kv.2)
                               (file_locks db))
  | None => map_to_list (filter (λ kv, now < lock_expires_at kv.2) (file_locks db))
  end.

(** ** Tool dispatch: [handle_tool_call] of [mcp_server.py]

    A call carries the tool's arguments and the clock readings the tool
    takes while it runs. *)

Inductive tool_call :=
| ToolRegister (now : Time) (name program model task : string)
| ToolSend (now : Time) (sender recipient subject body : string)
           (thread_id : option string)
| ToolInbox (agent : string) (unread_only : bool) (limit : Z)
| ToolMarkRead (now : Time) (message_id : Z) (agent : string)
| ToolAck (now1 now2 : Time) (message_id : Z) (agent : string)
| ToolLock (now1 now2 : Time) (path agent reason : string) (ttl_seconds : Z)
| ToolUnlock (path agent : string)
| ToolLocks (now : Time) (agent : option string).

Definition handle_tool_call (c : tool_call) (db : DB) : DB * response :=
  match c with
  | ToolRegister now name program model task =>
      register_agent now name program model task db
  | ToolSend now sender recipient subject body thread_id =>
      send_message now sender recipient subject body thread_id db
  | ToolInbox agent unread_only limit =>
      (db, Inbox (fetch_inbox agent unread_only limit db))
  | ToolMarkRead now message_id agent => mark_read now message_id agent db
  | ToolAck now1 now2 message_id agent => ack_message now1 now2 message_id agent db
  | ToolLock now1 now2 path agent reason ttl_seconds =>
      lock_file now1 now2 path agent reason ttl_seconds db
  | ToolUnlock path agent => unlock_file path agent db
  | ToolLocks now agent => (db, Locks (list_locks agent now db))
  end.

(** The server loop handles one request to completion before the next. *)
Definition serve (calls : list tool_call) (db : DB) : DB :=
  foldl (λ d c, (handle_tool_call c d).1) db calls.

(** The clock readings of a call, in the order they are taken. *)
Definition clock_reads (c : tool_call) : list Time :=
  match c with
  | ToolRegister now _ _ _ _ => [now]
  | ToolSend now _ _ _ _ _ => [now]
  | ToolInbox _ _ _ => []
  | ToolMarkRead now _ _ => [now]
  | ToolAck now1 now2 _ _ => [now1; now2]
  | ToolLock now1 now2 _ _ _ _ => [now1; now2]
  | ToolUnlock _ _ => []
  | ToolLocks now _ => [now]
  end.

(** A clock that never runs backwards: every reading is at least the one
    before it, starting from [t0]. *)
Fixpoint nondecreasing (t0 : Time) (ts : list Time) : Prop :=
  match ts with
  | [] => True
  | t :: ts' => t0 ≤ t ∧ nondecreasing t ts'
  end.

Definition clock_ok (t0 : Time) (calls : list tool_call) : Prop :=
  nondecreasing t0 (calls ≫= clock_reads).

(** The last of the readings [ts], or [t0] when there is none. *)
Definition latest (t0 : Time) (ts : list Time) : Time :=
  foldl (λ _ t, t) t0 ts.

(** ** The life cycle of one message

    What a call does to a row of [messages] that is already in the table:
    only the two updates write to existing rows. *)
Definition row_step (c : tool_call) (m : message) : message :=
  match c with
  | ToolMarkRead now message_id agent =>
      if decide (addressed message_id agent m) then set_read now m else m
  | ToolAck now1 now2 message_id agent =>
      if decide (addressed message_id agent m) then set_ack now1 now2 m else m
  | _ => m
  end.

(** A column that is set holds a reading not after [t]. *)
Definition not_after (t : Time) (o : option Time) : Prop :=
  match o with
  | Some x => x ≤ t
  | None => True
  end.

(** Both time stamps of the row were taken at or before [t]. *)
Definition stamped_by (t : Time) (m : message) : Prop :=
  not_after t (msg_read_at m) ∧ not_after t (msg_ack_at m).

(** A column that was set is still set and has not moved back. *)
Definition never_back (before after : option Time) : Prop :=
  match before, after with
  | None, _ => True
  | Some x, Some y => x ≤ y
  | Some _, None => False
  end.

(** An acknowledged row is also a read row. *)
Definition acked_is_read (m : message) : Prop :=
  match msg_ack_at m, msg_read_at m with
  | Some _, None => False
  | _, _ => True
  end.

(** Once [ack_at] is set, [read_at] is set and not after it. *)
Definition read_le_ack (m : message) : Prop :=
  match msg_ack_at m, msg_read_at m with
  | Some a, Some r => r ≤ a
  | Some _, None => False
  | None, _ => True
  end.

(** The calls that keep [read_at ≤ ack_at] on a row, given the row as
    it is when the call comes: every call but a [mark_read] of an
    acknowledged row with a reading after its [ack_at], and an
    acknowledgement of an unread row whose second reading is after its
    first. *)
Definition keeps_order (c : tool_call) (m : message) : Prop :=
  match c with
  | ToolMarkRead now message_id agent =>
      addressed message_id agent m →
      match msg_ack_at m with
      | Some a => now ≤ a
      | None => True
      end
  | ToolAck now1 now2 message_id agent =>
      addressed message_id agent m →
      match msg_read_at m with
      | Some _ => True
      | None => now2 ≤ now1
      end
  | _ => True
  end.

(** The [mark_read] calls that name the identifier and the agent. *)
Definition marks_read (message_id : Z) (agent : string) (c : tool_call) : Prop :=
  match c with
  | ToolMarkRead _ i a => i = message_id ∧ a = agent
  | _ => False
  end.

Global Instance marks_read_dec message_id agent c :
  Decision (marks_read message_id agent c).
Proof. destruct c; simpl; apply _. Defined.

(** The row after a run of calls. *)
Definition row_after (calls : list tool_call) (m : message) : message :=
  foldl (λ row c, row_step c row) m calls.

(** [keeps_order] along a run, the row changing as the calls change it. *)
Fixpoint order_kept (calls : list tool_call) (m : message) : Prop :=
  match calls with
  | [] => True
  | c :: rest => keeps_order c m ∧ order_kept rest (row_step c m)
  end.

Global Instance not_after_dec t o : Decision (not_after t o).
Proof. destruct o; simpl; apply _. Defined.
Global Instance stamped_by_dec t m : Decision (stamped_by t m).
Proof. unfold stamped_by. apply _. Defined.
Global Instance never_back_dec o o' : Decision (never_back o o').
Proof. destruct o, o'; simpl; apply _. Defined.
Global Instance acked_is_read_dec m : Decision (acked_is_read m).
Proof. unfold acked_is_read. destruct (msg_ack_at m), (msg_read_at m); apply _. Defined.
Global Instance read_le_ack_dec m : Decision (read_le_ack m).
Proof. unfold read_le_ack. destruct (msg_ack_at m), (msg_read_at m); apply _. Defined.

(** The selection of [fetch_inbox] before it is ordered and cut. *)
Definition in_inbox (agent : string) (unread_only : bool) (m : message) : Prop :=
  msg_recipient m = agent ∧ (unread_only = true → msg_read_at m = None).

Global Instance in_inbox_dec agent unread_only m :
  Decision (in_inbox agent unread_only m).
Proof. unfold in_inbox. apply _. Defined.

(** ** The agent listing

    [SELECT * FROM agents ORDER BY last_seen DESC]; as for the inbox, the
    order of rows with equal [last_seen] is left open by SQLite. *)
Definition last_seen_first (a b : string * agent_row) : Prop :=
  agent_last_seen b.2 ≤ agent_last_seen a.2.

Global Instance last_seen_first_dec a b : Decision (last_seen_first a b).
Proof. unfold last_seen_first. apply _. Defined.

Global Instance last_seen_first_total : Total last_seen_first.
Proof. intros a b. unfold last_seen_first. lia. Qed.

Global Instance last_seen_first_trans : Transitive last_seen_first.
Proof. intros a b c. unfold last_seen_first. lia. Qed.

Definition list_agents (db : DB) : list (string * agent_row) :=
  merge_sort last_seen_first (map_to_list (agents db)).

(** ** Runs of calls: what they are made of *)

Definition is_send (c : tool_call) : bool :=
  match c with
  | ToolSend _ _ _ _ _ _ => true
  | _ => false
  end.

(** The number of sends in a run. *)
Definition count_sends (calls : list tool_call) : nat :=
  length (filter (λ c, is_send c = true) calls).

(** The calls that write to the row of [path] in [file_locks] on behalf
    of [agent]: its acquires and its releases of that path. *)
Definition acts_on_lease (path agent : string) (c : tool_call) : Prop :=
  match c with
  | ToolLock _ _ p a _ _ => p = path ∧ a = agent
  | ToolUnlock p a => p = path ∧ a = agent
  | _ => False
  end.

Global Instance acts_on_lease_dec path agent c :
  Decision (acts_on_lease path agent c).
Proof. destruct c; simpl; apply _. Defined.

(** The calls that name [path] as the path to acquire or release. *)
Definition names_path (path : string) (c : tool_call) : Prop :=
  match c with
  | ToolLock _ _ p _ _ _ => p = path
  | ToolUnlock p _ => p = path
  | _ => False
  end.

Global Instance names_path_dec path c : Decision (names_path path c).
Proof. destruct c; simpl; apply _. Defined.

(** ** Exceptions

    The exceptions that the functions, the dispatch and the command line
    raise. *)
Inductive exception :=
| KeyError (key : string)
| ValueError (message : string)
| IndexError (message : string)
| OverflowError (message : string).

(** [str(e)]: a [KeyError] shows the key in quotes. *)
Definition str (e : exception) : string :=
  match e with
  | KeyError key => "'" +:+ key +:+ "'"
  | ValueError message => message
  | IndexError message => message
  | OverflowError message => message
  end.

(** A computation that returns or raises. *)
Inductive raises (A : Type) :=
| Returns (x : A)
| Raises (e : exception).
Global Arguments Returns {A} x.
Global Arguments Raises {A} e.

Global Instance raises_bind : MBind raises := λ A B f r,
  match r with
  | Returns x => f x
  | Raises e => Raises e
  end.

(** The integers of 64 bits. *)
Definition int64 (n : Z) : Prop :=
  -9223372036854775808 ≤ n < 9223372036854775808.

Global Instance int64_dec n : Decision (int64 n).
Proof. unfold int64. apply _. Defined.

(** An integer bound to a [?] of a statement: [sqlite3] takes the
    integers of 64 bits and raises for every other. *)
Definition sqlite_int (n : Z) : raises Z :=
  if decide (-9223372036854775808 ≤ n < 9223372036854775808)
  then Returns n
  else Raises (OverflowError "Python int too large to convert to SQLite INTEGER").

(** ** The memory store

    A row of [memory]; the primary key [id] is the key of the map.  The
    column [tags] holds the text that [json.dumps] makes of the list. *)
Record memory_row := MemoryRow {
  mem_content : string;
  mem_tags : string;
  mem_created_at : Z
}.

Inductive memory_response :=
| Stored (id : string)
| Forgotten (id : string).

(** [ORDER BY created_at DESC] on [memory]. *)
Definition created_first (a b : string * memory_row) : Prop :=
  mem_created_at b.2 ≤ mem_created_at a.2.

Global Instance created_first_dec a b : Decision (created_first a b).
Proof. unfold created_first. apply _. Defined.

Global Instance created_first_total : Total created_first.
Proof. intros a b. unfold created_first. lia. Qed.

Global Instance created_first_trans : Transitive created_first.
Proof. intros a b c. unfold created_first. lia. Qed.

(** What the code takes from libraries and from SQLite without defining
    it: [hashlib.sha256(s.encode()).hexdigest()], [json.dumps] on a list of
    strings, the [LIKE] operator (pattern first, text second), and the
    expiry [datetime.fromtimestamp(datetime.utcnow().timestamp() + ttl)]
    of [lock_file] as a function of the clock reading and the time to
    live.  The expiry goes through a float and, twice, through the local
    time zone; [expiry_of] is the instant whose [isoformat()] is stored, on
    the axis of the clock readings, or the exception raised when the sum or
    the date is out of range. *)
Class Library := {
  sha256_hexdigest : string → string;
  json_dumps : list string → string;
  sql_like : string → string → bool;
  expiry_of : Time → Z → raises Time
}.

(** The whole database: the tables of the coordination core and the
    table [memory]. *)
Record Store := MkStore {
  store_db : DB;
  store_memory : gmap string memory_row
}.

Definition empty_store : Store := MkStore empty_db ∅.

Section memory.
Context `{Library}.

(** [hexdigest()[:12]] *)
Definition mem_id_of (content : string) : string :=
  String.substring 0 12 (sha256_hexdigest content).

(** [INSERT ... ON CONFLICT(id) DO UPDATE SET tags = excluded.tags]: a row
    that is there keeps its content and its creation time.  [now] is the
    store's reading for [CURRENT_TIMESTAMP]. *)
Definition remember (now : Time) (content : string) (tags : option (list string))
    (mem : gmap string memory_row) : gmap string memory_row * memory_response :=
  let mem_id := mem_id_of content in
  let tags_text := json_dumps (default [] tags) in
  (match mem !! mem_id with
   | Some old =>
       <[mem_id := MemoryRow (mem_content old) tags_text (mem_created_at old)]> mem
   | None =>
       <[mem_id := MemoryRow content tags_text (now `div` 1000000)]> mem
   end,
   Stored mem_id).

(** [WHERE content LIKE ? ORDER BY created_at DESC LIMIT ?] with the
    pattern [f"%{query}%"]. *)
Definition recall (query : string) (limit : Z) (mem : gmap string memory_row)
    : list (string * memory_row) :=
  sql_limit limit
    (merge_sort created_first
       (filter (λ kv, sql_like ("%" +:+ query +:+ "%") (mem_content kv.2) = true)
               (map_to_list mem))).

Definition forget (mem_id : string) (mem : gmap string memory_row)
    : gmap string memory_row * memory_response :=
  (delete mem_id mem, Forgotten mem_id).

(** [recall] as it is called: the limit is bound to the statement. *)
Definition recall_call (query : string) (limit : Z)
    (mem : gmap string memory_row) : raises (list (string * memory_row)) :=
  limit ← sqlite_int limit;
  Returns (recall query limit mem).
End memory.

(** ** The functions as they are called

    [fetch_inbox], [mark_read], [ack_message] and [lock_file] above say
    what the statements do with values that can be bound and with an
    expiry that is the clock reading plus the time to live.  A call can
    also raise before any statement runs: an integer outside 64 bits
    cannot be bound, and the expiry of [lock_file] is what [expiry_of]
    gives, which may raise and need not be the exact sum. *)

Definition fetch_inbox_call (agent : string) (unread_only : bool) (limit : Z)
    (db : DB) : raises (list message) :=
  limit ← sqlite_int limit;
  Returns (fetch_inbox agent unread_only limit db).

Definition mark_read_call (now : Time) (message_id : Z) (agent : string)
    (db : DB) : raises (DB * response) :=
  message_id ← sqlite_int message_id;
  Returns (mark_read now message_id agent db).

Definition ack_message_call (now1 now2 : Time) (message_id : Z) (agent : string)
    (db : DB) : raises (DB * response) :=
  message_id ← sqlite_int message_id;
  Returns (ack_message now1 now2 message_id agent db).

(** The statements of [lock_file] once the expiry has been computed. *)
Definition lock_file_at (expires now2 : Time) (path agent reason : string)
    (db : DB) : DB * response :=
  let upsert :=
    (set_file_locks (<[path := FileLock agent reason expires]> (file_locks db)) db,
     Locked path expires) in
  match live_lock path now2 db with
  | Some existing =>
      if decide (lock_agent existing ≠ agent)
      then (db, Conflict (lock_agent existing) path)
      else upsert
  | None => upsert
  end.

(** [lock_file] as it is called: the expiry is computed first, and an
    exception there ends the call before the table is read. *)
Definition lock_file_call `{Library} (now1 now2 : Time)
    (path agent reason : string) (ttl_seconds : Z) (db : DB)
    : raises (DB * response) :=
  expires ← expiry_of now1 ttl_seconds;
  Returns (lock_file_at expires now2 path agent reason db).

(** The smallest and the largest instant a [datetime] can hold, in
    microseconds from the epoch: the first of the year 1 and the last of
    the year 9999. *)
Definition datetime_min : Time := -62135596800000000.
Definition datetime_max : Time := 253402300799999999.

(** ** The server: [mcp_server.py]

    The [arguments] object of a [tools/call] request, for requests whose
    values have the types that [TOOLS] declares: a key is absent or holds
    a value of its declared type. *)
Record arguments := MkArguments {
  arg_name : option string;
  arg_program : option string;
  arg_model : option string;
  arg_task : option string;
  arg_sender : option string;
  arg_recipient : option string;
  arg_subject : option string;
  arg_body : option string;
  arg_thread_id : option string;
  arg_agent : option string;
  arg_unread_only : option bool;
  arg_limit : option Z;
  arg_message_id : option Z;
  arg_path : option string;
  arg_reason : option string;
  arg_ttl_seconds : option Z;
  arg_content : option string;
  arg_tags : option (list string);
  arg_query : option string;
  arg_id : option string
}.

(** The empty object [{}]. *)
Definition no_arguments : arguments :=
  MkArguments None None None None None None None None None None
              None None None None None None None None None None.

(** The entries of [TOOLS]: the name of a tool and the keys its schema
    lists as required (descriptions and property types are left out). *)
Record tool_spec := ToolSpec {
  tool_name : string;
  tool_required : list string
}.

Definition TOOLS : list tool_spec :=
  [ToolSpec "register" ["name"];
   ToolSpec "agents" [];
   ToolSpec "send" ["sender"; "recipient"; "subject"];
   ToolSpec "inbox" ["agent"];
   ToolSpec "mark_read" ["message_id"; "agent"];
   ToolSpec "ack" ["message_id"; "agent"];
   ToolSpec "lock" ["path"; "agent"];
   ToolSpec "unlock" ["path"; "agent"];
   ToolSpec "locks" [];
   ToolSpec "remember" ["content"];
   ToolSpec "recall" ["query"];
   ToolSpec "forget" ["id"]]%string.

(** [key in args] *)
Definition has_key (key : string) (args : arguments) : bool :=
  if decide (key = "name") then bool_decide (is_Some (arg_name args))
  else if decide (key = "program") then bool_decide (is_Some (arg_program args))
  else if decide (key = "model") then bool_decide (is_Some (arg_model args))
  else if decide (key = "task") then bool_decide (is_Some (arg_task args))
  else if decide (key = "sender") then bool_decide (is_Some (arg_sender args))
  else if decide (key = "recipient") then bool_decide (is_Some (arg_recipient args))
  else if decide (key = "subject") then bool_decide (is_Some (arg_subject args))
  else if decide (key = "body") then bool_decide (is_Some (arg_body args))
  else if decide (key = "thread_id") then bool_decide (is_Some (arg_thread_id args))
  else if decide (key = "agent") then bool_decide (is_Some (arg_agent args))
  else if decide (key = "unread_only") then bool_decide (is_Some (arg_unread_only args))
  else if decide (key = "limit") then bool_decide (is_Some (arg_limit args))
  else if decide (key = "message_id") then bool_decide (is_Some (arg_message_id args))
  else if decide (key = "path") then bool_decide (is_Some (arg_path args))
  else if decide (key = "reason") then bool_decide (is_Some (arg_reason args))
  else if decide (key = "ttl_seconds") then bool_decide (is_Some (arg_ttl_seconds args))
  else if decide (key = "content") then bool_decide (is_Some (arg_content args))
  else if decide (key = "tags") then bool_decide (is_Some (arg_tags args))
  else if decide (key = "query") then bool_decide (is_Some (arg_query args))
  else if decide (key = "id") then bool_decide (is_Some (arg_id args))
  else false.

(** [args[key]] *)
Definition item {A} (key : string) (value : option A) : raises A :=
  match value with
  | Some x => Returns x
  | None => Raises (KeyError key)
  end.

(** What a tool hands back to the server. *)
Inductive tool_result :=
| CoreResult (r : response)
| AgentList (rows : list (string * agent_row))
| MemoryResult (r : memory_response)
| Recalled (rows : list (string * memory_row)).

(** How an f-string shows a name that may be [None]. *)
Definition format_name (name : option string) : string :=
  default "None"%string name.

Section server.
Context `{Library}.

Definition on_db (c : tool_call) (st : Store) : Store * tool_result :=
  let r := handle_tool_call c (store_db st) in
  (MkStore r.1 (store_memory st), CoreResult r.2).

Definition on_memory (r : gmap string memory_row * memory_response)
    (st : Store) : Store * tool_result :=
  (MkStore (store_db st) r.1, MemoryResult r.2).

Definition with_db (r : DB * response) (st : Store) : Store * tool_result :=
  (MkStore r.1 (store_memory st), CoreResult r.2).

(** [handle_tool_call(name, args)], with the two clock readings the tool
    may take.  The chain of comparisons is the one of the source; an
    argument read with [args[...]] raises [KeyError] when absent, one read
    with [args.get] has its default.  What the called function raises
    comes after that. *)
Definition handle_tool_call_named (now1 now2 : Time) (name : option string)
    (args : arguments) (st : Store) : raises (Store * tool_result) :=
  if decide (name = Some "register"%string) then
    agent_name ← item "name" (arg_name args);
    Returns (on_db (ToolRegister now1 agent_name
                      (default "unknown"%string (arg_program args))
                      (default "unknown"%string (arg_model args))
                      (default EmptyString (arg_task args))) st)
  else if decide (name = Some "agents"%string) then
    Returns (st, AgentList (list_agents (store_db st)))
  else if decide (name = Some "send"%string) then
    sender ← item "sender" (arg_sender args);
    recipient ← item "recipient" (arg_recipient args);
    subject ← item "subject" (arg_subject args);
    Returns (on_db (ToolSend now1 sender recipient subject
                      (default EmptyString (arg_body args))
                      (arg_thread_id args)) st)
  else if decide (name = Some "inbox"%string) then
    agent ← item "agent" (arg_agent args);
    rows ← fetch_inbox_call agent (default true (arg_unread_only args))
                            (default 20 (arg_limit args)) (store_db st);
    Returns (st, CoreResult (Inbox rows))
  else if decide (name = Some "mark_read"%string) then
    message_id ← item "message_id" (arg_message_id args);
    agent ← item "agent" (arg_agent args);
    r ← mark_read_call now1 message_id agent (store_db st);
    Returns (with_db r st)
  else if decide (name = Some "ack"%string) then
    message_id ← item "message_id" (arg_message_id args);
    agent ← item "agent" (arg_agent args);
    r ← ack_message_call now1 now2 message_id agent (store_db st);
    Returns (with_db r st)
  else if decide (name = Some "lock"%string) then
    path ← item "path" (arg_path args);
    agent ← item "agent" (arg_agent args);
    r ← lock_file_call now1 now2 path agent
                       (default EmptyString (arg_reason args))
                       (default 1800 (arg_ttl_seconds args)) (store_db st);
    Returns (with_db r st)
  else if decide (name = Some "unlock"%string) then
    path ← item "path" (arg_path args);
    agent ← item "agent" (arg_agent args);
    Returns (on_db (ToolUnlock path agent) st)
  else if decide (name = Some "locks"%string) then
    Returns (on_db (ToolLocks now1 (arg_agent args)) st)
  else if decide (name = Some "remember"%string) then
    content ← item "content" (arg_content args);
    Returns (on_memory (remember now1 content (arg_tags args) (store_memory st)) st)
  else if decide (name = Some "recall"%string) then
    query ← item "query" (arg_query args);
    rows ← recall_call query (default 5 (arg_limit args)) (store_memory st);
    Returns (st, Recalled rows)
  else if decide (name = Some "forget"%string) then
    mem_id ← item "id" (arg_id args);
    Returns (on_memory (forget mem_id (store_memory st)) st)
  else Raises (ValueError ("Unknown tool: " +:+ format_name name)).
End server.

(** The [id] of a JSON-RPC message: absent, a number or a string. *)
Inductive rpc_id :=
| NoId
| NumberId (n : Z)
| StringId (s : string).

(** A decoded line: [method], [id], and from [params] the [name] and the
    [arguments]; a missing [params] or [arguments] is the empty object. *)
Record message_in := MessageIn {
  msg_method : option string;
  msg_rpc_id : rpc_id;
  msg_tool_name : option string;
  msg_arguments : arguments
}.

(** The [result] of a success response. *)
Inductive rpc_result :=
| InitializeResult
| ToolsListResult (tools : list tool_spec)
| ToolCallResult (r : tool_result).

(** [success_response] and [error_response]. *)
Inductive message_out :=
| success_response (id : rpc_id) (result : rpc_result)
| error_response (id : rpc_id) (code : Z) (message : string).

Section loop.
Context `{Library}.

(** One turn of the loop of [main]: the store afterwards and the line
    written, if any. *)
Definition handle_message (now1 now2 : Time) (msg : message_in) (st : Store)
    : Store * option message_out :=
  let id := msg_rpc_id msg in
  if decide (msg_method msg = Some "initialize"%string) then
    (st, Some (success_response id InitializeResult))
  else if decide (msg_method msg = Some "notifications/initialized"%string) then
    (st, None)
  else if decide (msg_method msg = Some "tools/list"%string) then
    (st, Some (success_response id (ToolsListResult TOOLS)))
  else if decide (msg_method msg = Some "tools/call"%string) then
    match handle_tool_call_named now1 now2 (msg_tool_name msg)
                                 (msg_arguments msg) st with
    | Returns (st', r) => (st', Some (success_response id (ToolCallResult r)))
    | Raises e => (st, Some (error_response id (-32000) (str e)))
    end
  else
    (st, Some (error_response id (-32601)
                 ("Unknown method: " +:+ format_name (msg_method msg)))).

(** The loop over the lines read, each with the clock readings taken
    while it is handled; the lines written, in order. *)
Fixpoint main (lines : list (Time * Time * message_in)) (st : Store)
    : Store * list message_out :=
  match lines with
  | [] => (st, [])
  | (now1, now2, msg) :: rest =>
      let '(st1, out) := handle_message now1 now2 msg st in
      let '(st2, outs) := main rest st1 in
      (st2, match out with Some o => o :: outs | None => outs end)
  end.
End loop.

(** The [id] a written line carries. *)
Definition response_id (o : message_out) : rpc_id :=
  match o with
  | success_response id _ => id
  | error_response id _ _ => id
  end.

(** The lines that get no answer. *)
Definition is_notification (msg : message_in) : Prop :=
  msg_method msg = Some "notifications/initialized"%string.

Global Instance is_notification_dec msg : Decision (is_notification msg).
Proof. unfold is_notification. apply _. Defined.

(** The tools that write to the database. *)
Definition writing_tools : list string :=
  ["register"; "send"; "mark_read"; "ack"; "lock"; "unlock";
   "remember"; "forget"]%string.

(** Stand-ins for the library functions, to run examples with: the
    statements below hold for every [Library].  The expiry is the one of
    a machine whose local zone is UTC, for sums that the float holds
    exactly: the reading plus the time to live when that is an instant a
    [datetime] can hold, and an exception otherwise (the text of the
    message, which names the year, is not modelled).  The examples use it
    for readings of the year 2023 with a time to live of seconds or
    minutes, where the expiry is the exact sum, and with a time to live of
    minus [10^12] seconds, where the date is some thirty thousand years
    before the year 1 and [fromtimestamp] raises in every zone. *)
Definition example_library : Library :=
  {| sha256_hexdigest := λ s, s;
     json_dumps := λ l, String.concat "," l;
     sql_like := λ pattern text, true;
     expiry_of := λ now ttl_seconds,
       if decide (datetime_min ≤ now + micros ttl_seconds ≤ datetime_max)
       then Returns (now + micros ttl_seconds)
       else Raises (ValueError "year is out of range") |}.

(** ** The command line of [bridge.py]

    [argv] is [sys.argv], the name of the script first. *)

(** The commands that the usage line names. *)
Definition cli_commands : list string :=
  ["register"; "send"; "inbox"; "lock"; "unlock"; "locks"; "remember";
   "recall"; "agents"]%string.

(** How a run of the command line ends: a result is printed, the usage
    is printed and the exit status is 1, the unknown command is reported,
    or an exception is not caught. *)
Inductive cli_outcome :=
| Printed (r : tool_result)
| Usage
| UnknownCommand (cmd : string)
| Uncaught (e : exception).

(** [a, b = l] and [a, b, c = l] with a list that is too short. *)
Definition unpack_error (expected : nat) (l : list string) : exception :=
  ValueError ("not enough values to unpack (expected " +:+ pretty expected
              +:+ ", got " +:+ pretty (length l) +:+ ")").

(** [sys.argv[2]] *)
Definition argv_item (i : nat) (argv : list string) : raises string :=
  match argv !! i with
  | Some x => Returns x
  | None => Raises (IndexError "list index out of range")
  end.

Section command_line.
Context `{Library}.

Definition print_or_die (r : raises (Store * tool_result)) (st : Store)
    : Store * cli_outcome :=
  match r with
  | Returns (st', result) => (st', Printed result)
  | Raises e => (st, Uncaught e)
  end.

Definition cli (now1 now2 : Time) (argv : list string) (st : Store)
    : Store * cli_outcome :=
  match argv !! 1%nat with
  | None => (st, Usage)
  | Some cmd =>
      if decide (cmd = "register"%string) then
        let name := default "test-agent"%string (argv !! 2%nat) in
        print_or_die
          (Returns (on_db (ToolRegister now1 name "unknown" "unknown"
                             EmptyString) st)) st
      else if decide (cmd = "agents"%string) then
        (st, Printed (AgentList (list_agents (store_db st))))
      else if decide (cmd = "send"%string) then
        match take 3 (drop 2 argv) with
        | [sender; recipient; subject] =>
            let body := default EmptyString (argv !! 5%nat) in
            print_or_die
              (Returns (on_db (ToolSend now1 sender recipient subject body None)
                              st)) st
        | l => (st, Uncaught (unpack_error 3 l))
        end
      else if decide (cmd = "inbox"%string) then
        print_or_die
          (agent ← argv_item 2 argv;
           Returns (on_db (ToolInbox agent true 20) st)) st
      else if decide (cmd = "lock"%string) then
        match take 2 (drop 2 argv) with
        | [path; agent] =>
            print_or_die
              (r ← lock_file_call now1 now2 path agent EmptyString 1800
                                  (store_db st);
               Returns (with_db r st)) st
        | l => (st, Uncaught (unpack_error 2 l))
        end
      else if decide (cmd = "unlock"%string) then
        match take 2 (drop 2 argv) with
        | [path; agent] =>
            print_or_die (Returns (on_db (ToolUnlock path agent) st)) st
        | l => (st, Uncaught (unpack_error 2 l))
        end
      else if decide (cmd = "locks"%string) then
        print_or_die (Returns (on_db (ToolLocks now1 None) st)) st
      else if decide (cmd = "remember"%string) then
        print_or_die
          (content ← argv_item 2 argv;
           Returns (on_memory (remember now1 content None (store_memory st)) st))
          st
      else if decide (cmd = "recall"%string) then
        print_or_die
          (query ← argv_item 2 argv;
           Returns (st, Recalled (recall query 5 (store_memory st)))) st
      else (st, UnknownCommand cmd)
  end.
End command_line.

(** ** First checks on concrete runs *)

Example send_ack_run :
  messages (serve [ToolSend 5000000 "a" "b" "hi" "body" None;
                   ToolAck 7000000 7000000 1 "b"] empty_db)
  = [Message 1 "a" "b" "hi" "body" None 5 (Some 7000000) (Some 7000000)].
Proof. vm_compute. reflexivity. Qed.

Example lock_conflict_run :
  (lock_file 20 21 "f.py" "B" "fix" 1800
     (lock_file 10 11 "f.py" "A" "edit" 1800 empty_db).1).2
  = Conflict "A" "f.py".
Proof. vm_compute. reflexivity. Qed.

(** * Properties *)

(** ** The lease manager *)

Section locks.
Implicit Types (db : DB) (row : file_lock) (path agent reason : string).

Lemma live_lock_Some path now db row :
  live_lock path now db = Some row ↔
  file_locks db !! path = Some row ∧ now < lock_expires_at row.
Proof.
  unfold live_lock. destruct (file_locks db !! path) as [r|].
  - case_decide as Hlt; split.
    + intros [= <-]. auto.
    + by intros [[= <-] _].
    + done.
    + intros [[= <-] ?]. lia.
  - split; [done | by intros [? _]].
Qed.

Lemma live_lock_None path now db :
  live_lock path now db = None ↔
  ∀ row, file_locks db !! path = Some row → lock_expires_at row ≤ now.
Proof.
  unfold live_lock. destruct (file_locks db !! path) as [r|].
  - case_decide as Hlt; split; try done.
    + intros Hr. specialize (Hr r eq_refl). lia.
    + intros _ row [= <-]. lia.
  - split; [by intros _ row | done].
Qed.

(** The exclusivity check: a live row of another holder ends the call
    before anything is written. *)
Lemma lock_file_conflict now1 now2 path agent reason ttl db row :
  file_locks db !! path = Some row →
  now2 < lock_expires_at row →
  lock_agent row ≠ agent →
  lock_file now1 now2 path agent reason ttl db
  = (db, Conflict (lock_agent row) path).
Proof.
  intros Hrow Hlive Hne. unfold lock_file.
  assert (live_lock path now2 db = Some row) as -> by by apply live_lock_Some.
  by rewrite decide_True.
Qed.

(** In every other case the row is written. *)
Lemma lock_file_grant now1 now2 path agent reason ttl db :
  (∀ row, file_locks db !! path = Some row →
          now2 < lock_expires_at row → lock_agent row = agent) →
  lock_file now1 now2 path agent reason ttl db
  = (set_file_locks
       (<[path := FileLock agent reason (now1 + micros ttl)]> (file_locks db)) db,
     Locked path (now1 + micros ttl)).
Proof.
  intros Hfree. unfold lock_file.
  destruct (live_lock path now2 db) as [row|] eqn:Hl; [|done].
  apply live_lock_Some in Hl as [Hrow Hlive].
  rewrite decide_False; [done|]. intros Hne. by apply Hne, Hfree.
Qed.

(** What a granted call leaves behind. *)
Lemma lock_file_granted_inv now1 now2 path agent reason ttl db db' p e :
  lock_file now1 now2 path agent reason ttl db = (db', Locked p e) →
  p = path ∧ e = now1 + micros ttl ∧
  file_locks db' !! path = Some (FileLock agent reason e) ∧
  messages db' = messages db ∧ agents db' = agents db.
Proof.
  unfold lock_file.
  destruct (live_lock path now2 db) as [row|]; [case_decide|];
    intros [= <- <- <-]; simpl; by rewrite lookup_insert_eq.
Qed.

Lemma lock_file_result now1 now2 path agent reason ttl db :
  (∃ holder, holder ≠ agent ∧
     lock_file now1 now2 path agent reason ttl db = (db, Conflict holder path)) ∨
  lock_file now1 now2 path agent reason ttl db
  = (set_file_locks
       (<[path := FileLock agent reason (now1 + micros ttl)]> (file_locks db)) db,
     Locked path (now1 + micros ttl)).
Proof.
  unfold lock_file.
  destruct (live_lock path now2 db) as [row|]; [case_decide|]; eauto.
Qed.

(** [DELETE ... WHERE path = ? AND agent = ?] removes the row of [path]
    when its holder is [agent], and nothing else. *)
Lemma unlock_file_locks path agent db :
  file_locks (unlock_file path agent db).1 =
  match file_locks db !! path with
  | Some row => if decide (lock_agent row = agent)
                then delete path (file_locks db)
                else file_locks db
  | None => file_locks db
  end.
Proof.
  simpl. apply map_eq. intros q.
  rewrite map_lookup_filter.
  destruct (file_locks db !! path) as [row|] eqn:Hp.
  - case_decide as Ha.
    + destruct (decide (q = path)) as [->|Hq].
      * rewrite lookup_delete_eq, Hp. simpl.
        rewrite option_guard_False; [done|]. simpl.
        intros Hn. by apply Hn.
      * rewrite lookup_delete_ne by done.
        destruct (file_locks db !! q) as [r|]; [|done]. simpl.
        rewrite option_guard_True; [done|]. simpl. by intros [? _].
    + destruct (file_locks db !! q) as [r|] eqn:Hq; [|done]. simpl.
      rewrite option_guard_True; [done|]. simpl.
      intros [-> ?]. congruence.
  - destruct (file_locks db !! q) as [r|] eqn:Hq; [|done]. simpl.
    rewrite option_guard_True; [done|]. simpl.
    intros [-> _]. congruence.
Qed.

Lemma set_file_locks_id db : set_file_locks (file_locks db) db = db.
Proof. by destruct db. Qed.

(** Membership in the listing. *)
Lemma elem_of_list_locks (filter_by : option string) now db path row :
  (path, row) ∈ list_locks filter_by now db ↔
  file_locks db !! path = Some row ∧ now < lock_expires_at row ∧
  match filter_by with
  | Some a => a = EmptyString ∨ lock_agent row = a
  | None => True
  end.
Proof.
  unfold list_locks. destruct filter_by as [a|]; [case_decide|];
    rewrite elem_of_map_to_list, map_lookup_filter_Some; simpl; tauto.
Qed.

(** [path] is the primary key: a listing names a path at most once. *)
Lemma list_locks_one_per_path (filter_by : option string) now db path row1 row2 :
  (path, row1) ∈ list_locks filter_by now db →
  (path, row2) ∈ list_locks filter_by now db →
  row1 = row2.
Proof.
  rewrite !elem_of_list_locks. intros (H1 & _) (H2 & _). congruence.
Qed.

Lemma list_locks_NoDup (filter_by : option string) now db :
  NoDup (list_locks filter_by now db).*1.
Proof.
  unfold list_locks. destruct filter_by as [a|]; [case_decide|];
    apply NoDup_fst_map_to_list.
Qed.
End locks.



(** The same in terms of two calls: [A] is granted [path], [B] asks before
    the expiry that [A] was told. *)
Lemma acquire_then_contend (a1 a2 b1 b2 : Time) (path A B rA rB : string)
    (ttlA ttlB : Z) (db db1 : DB) (e : Time) :
  lock_file a1 a2 path A rA ttlA db = (db1, Locked path e) →
  b2 < e → B ≠ A →
  lock_file b1 b2 path B rB ttlB db1 = (db1, Conflict A path) ∧
  file_locks db1 !! path = Some (FileLock A rA (a1 + micros ttlA)).
Proof.
  intros Hgrant Hlive HB.
  apply lock_file_granted_inv in Hgrant as (_ & -> & Hrow & _).
  split; [|done].
  by apply (lock_file_conflict b1 b2 path B rB ttlB db1 _ Hrow).
Qed.



(** [lock_file] is [lock_file_at] with the exact sum for the expiry, and
    every statement about the one carries over to the other. *)
Lemma lock_file_exact (now1 now2 : Time) (path agent reason : string)
    (ttl : Z) (db : DB) :
  lock_file now1 now2 path agent reason ttl db
  = lock_file_at (now1 + micros ttl) now2 path agent reason db.
Proof. done. Qed.

Lemma lock_file_at_as_lock_file (expires now2 : Time)
    (path agent reason : string) (db : DB) :
  lock_file_at expires now2 path agent reason db
  = lock_file expires now2 path agent reason 0 db.
Proof.
  unfold lock_file, lock_file_at, micros. by rewrite Z.mul_0_l, Z.add_0_r.
Qed.

Lemma lock_file_at_conflict expires now2 path agent reason db row :
  file_locks db !! path = Some row →
  now2 < lock_expires_at row →
  lock_agent row ≠ agent →
  lock_file_at expires now2 path agent reason db
  = (db, Conflict (lock_agent row) path).
Proof.
  intros. rewrite lock_file_at_as_lock_file. by apply lock_file_conflict.
Qed.

Lemma lock_file_at_grant expires now2 path agent reason db :
  (∀ row, file_locks db !! path = Some row →
          now2 < lock_expires_at row → lock_agent row = agent) →
  lock_file_at expires now2 path agent reason db
  = (set_file_locks
       (<[path := FileLock agent reason expires]> (file_locks db)) db,
     Locked path expires).
Proof.
  intros Hfree. rewrite lock_file_at_as_lock_file, lock_file_grant by done.
  unfold micros. by rewrite Z.mul_0_l, Z.add_0_r.
Qed.

Lemma lock_file_at_result expires now2 path agent reason db :
  (∃ holder, holder ≠ agent ∧
     lock_file_at expires now2 path agent reason db
     = (db, Conflict holder path)) ∨
  lock_file_at expires now2 path agent reason db
  = (set_file_locks
       (<[path := FileLock agent reason expires]> (file_locks db)) db,
     Locked path expires).
Proof.
  unfold lock_file_at.
  destruct (live_lock path now2 db) as [row|]; [case_decide|]; eauto.
Qed.

(** What a call returns, it returns from [lock_file_at] with the expiry
    that [expiry_of] gave. *)
Lemma lock_file_call_returns `{Library} now1 now2 path agent reason ttl db
    (result : DB * response) :
  lock_file_call now1 now2 path agent reason ttl db = Returns result ↔
  ∃ e, expiry_of now1 ttl = Returns e ∧
       lock_file_at e now2 path agent reason db = result.
Proof.
  unfold lock_file_call. destruct (expiry_of now1 ttl) as [e|err]; simpl.
  - split; [intros [= <-]; eauto|]. by intros (e' & [= <-] & ->).
  - split; [done|]. by intros (e' & ? & _).
Qed.

Lemma lock_file_call_raises `{Library} now1 now2 path agent reason ttl db err :
  lock_file_call now1 now2 path agent reason ttl db = Raises err ↔
  expiry_of now1 ttl = Raises err.
Proof.
  unfold lock_file_call. destruct (expiry_of now1 ttl) as [e|err']; simpl.
  - split; done.
  - split; by intros [= <-].
Qed.

(** The exclusivity check and the reclamation of an expired lease, on
    the function as it is called: the outcome is the one of [lock_file]
    whenever the expiry can be computed, and the call raises, writing
    nothing, when it cannot. *)
Lemma lease_exclusivity_as_called `{Library} (now1 now2 : Time)
    (path A B reason : string) (ttl : Z) (db : DB) (row : file_lock) :
  file_locks db !! path = Some row →
  lock_agent row = A →
  now2 < lock_expires_at row →
  B ≠ A →
  (∀ e, expiry_of now1 ttl = Returns e →
     lock_file_call now1 now2 path B reason ttl db
     = Returns (db, Conflict A path)) ∧
  (∀ err, expiry_of now1 ttl = Raises err →
     lock_file_call now1 now2 path B reason ttl db = Raises err).
Proof.
  intros Hrow <- Hlive HB. split.
  - intros e He. apply lock_file_call_returns. exists e. split; [done|].
    by apply lock_file_at_conflict.
  - intros err Herr. by apply lock_file_call_raises.
Qed.

Lemma expiry_reclamation_as_called `{Library} (now1 now2 : Time)
    (path B reason : string) (ttl : Z) (db : DB) (row : file_lock) :
  file_locks db !! path = Some row →
  lock_expires_at row ≤ now2 →
  (∀ e, expiry_of now1 ttl = Returns e →
     lock_file_call now1 now2 path B reason ttl db
     = Returns (set_file_locks
                  (<[path := FileLock B reason e]> (file_locks db)) db,
                Locked path e)) ∧
  (∀ err, expiry_of now1 ttl = Raises err →
     lock_file_call now1 now2 path B reason ttl db = Raises err).
Proof.
  intros Hrow Hdead. split.
  - intros e He. apply lock_file_call_returns. exists e. split; [done|].
    apply lock_file_at_grant. intros r Hr Hlive.
    rewrite Hrow in Hr. injection Hr as <-. lia.
  - intros err Herr. by apply lock_file_call_raises.
Qed.

(** C5 (renewal), as the code has it.  When an acquire of [path] by [A]
    has been granted, the next acquire of [path] by [A] does not return a
    conflict, whatever the clock shows.  When its expiry can be computed
    it is granted and writes the row again, with the second call's reason
    and the expiry computed from the second call's clock reading and time
    to live, be that later or earlier than the expiry before; when the
    expiry cannot be computed the call raises and writes nothing.  With
    expiries that are the exact sums, a clock that has not gone back and a
    time to live that is not shorter, the new expiry is not earlier than
    the old one, and it is later as soon as the clock has advanced. *)
Theorem renewal_idempotence `{Library} (a1 a2 b1 b2 : Time)
    (path A r1 r2 : string) (ttl1 ttl2 : Z) (db db1 : DB) (e1 : Time) :
  lock_file_call a1 a2 path A r1 ttl1 db = Returns (db1, Locked path e1) →
  let second := lock_file_call b1 b2 path A r2 ttl2 db1 in
  (∀ db2 holder, second ≠ Returns (db2, Conflict holder path)) ∧
  (∀ e2, expiry_of b1 ttl2 = Returns e2 →
     second = Returns (set_file_locks
                         (<[path := FileLock A r2 e2]> (file_locks db1)) db1,
                       Locked path e2)) ∧
  (∀ err, expiry_of b1 ttl2 = Raises err → second = Raises err) ∧
  (expiry_of a1 ttl1 = Returns (a1 + micros ttl1) →
   expiry_of b1 ttl2 = Returns (b1 + micros ttl2) →
   ttl1 ≤ ttl2 →
   (a1 ≤ b1 → e1 ≤ b1 + micros ttl2) ∧ (a1 < b1 → e1 < b1 + micros ttl2)).
Proof.
  intros Hfirst second. subst second.
  apply lock_file_call_returns in Hfirst as (e & He & Hgrant).
  rewrite lock_file_at_as_lock_file in Hgrant.
  apply lock_file_granted_inv in Hgrant as (_ & He1 & Hrow & _).
  assert (∀ e2, lock_file_at e2 b2 path A r2 db1
                = (set_file_locks
                     (<[path := FileLock A r2 e2]> (file_locks db1)) db1,
                   Locked path e2)) as Hsecond.
  { intros e2. apply lock_file_at_grant.
    intros r Hr _. rewrite Hrow in Hr. by injection Hr as <-. }
  split_and!.
  - intros db2 holder (e2 & _ & Hc)%lock_file_call_returns.
    by rewrite Hsecond in Hc.
  - intros e2 He2. apply lock_file_call_returns. eauto.
  - intros err Herr. by apply lock_file_call_raises.
  - intros Hexact1 _ Httl. rewrite Hexact1 in He. injection He as <-.
    unfold micros in *. lia.
Qed.

Lemma renewal_idempotence_witness :
  let db1 := (lock_file 1700000000000000 1700000000000001 "src/app.py"
                "claude-1" "edit" 1800 empty_db).1 in
  let second := @lock_file_call example_library 1700000500000000
                  1700000500000001 "src/app.py" "claude-1" "more" 1800 db1 in
  (∀ db2 holder, second ≠ Returns (db2, Conflict holder "src/app.py")) ∧
  (∀ e2, @expiry_of example_library 1700000500000000 1800 = Returns e2 →
     second = Returns (set_file_locks
                         (<["src/app.py" := FileLock "claude-1" "more" e2]>
                            (file_locks db1)) db1,
                       Locked "src/app.py" e2)) ∧
  (∀ err, @expiry_of example_library 1700000500000000 1800 = Raises err →
     second = Raises err) ∧
  (@expiry_of example_library 1700000000000000 1800
   = Returns (1700000000000000 + micros 1800) →
   @expiry_of example_library 1700000500000000 1800
   = Returns (1700000500000000 + micros 1800) →
   1800 ≤ 1800 →
   (1700000000000000 ≤ 1700000500000000 →
    1700001800000000 ≤ 1700000500000000 + micros 1800) ∧
   (1700000000000000 < 1700000500000000 →
    1700001800000000 < 1700000500000000 + micros 1800)).
Proof.
  intros db1.
  apply (@renewal_idempotence example_library 1700000000000000 1700000000000001
           1700000500000000 1700000500000001 "src/app.py" "claude-1" "edit"
           "more" 1800 1800 empty_db db1 1700001800000000).
  vm_compute. reflexivity.
Defined.

(** C5 as the specification states it fails: the lease is acquired for
    half an hour and then, by the same agent and under an advancing clock,
    for one minute; the second acquire is granted and moves the expiry
    earlier. *)
Lemma renewal_can_shorten :
  let first := @lock_file_call example_library 1700000000000000
                 1700000000000001 "src/app.py" "claude-1" "edit" 1800 empty_db in
  let db1 := (lock_file 1700000000000000 1700000000000001 "src/app.py"
                "claude-1" "edit" 1800 empty_db).1 in
  let second := @lock_file_call example_library 1700000500000000
                  1700000500000001 "src/app.py" "claude-1" "more" 60 db1 in
  first = Returns (db1, Locked "src/app.py" 1700001800000000) ∧
  (∃ db2, second = Returns (db2, Locked "src/app.py" 1700000560000000) ∧
          file_locks db2 !! "src/app.py"
          = Some (FileLock "claude-1" "more" 1700000560000000)) ∧
  ¬ (1700001800000000 ≤ 1700000560000000).
Proof.
  split_and!.
  - vm_compute. reflexivity.
  - eexists. split; vm_compute; reflexivity.
  - lia.
Qed.

(** A second acquire by the same agent, right after the first, returns a
    conflict only when the first one did, and then with the same holder. *)
Lemma second_conflict_only_after_first (a1 a2 b1 b2 : Time)
    (path A r1 r2 : string) (ttl1 ttl2 : Z) (db : DB) (holder : string) :
  let first := lock_file a1 a2 path A r1 ttl1 db in
  (lock_file b1 b2 path A r2 ttl2 first.1).2 = Conflict holder path →
  first = (db, Conflict holder path) ∧ holder ≠ A.
Proof.
  intros first Hsecond. subst first.
  destruct (lock_file_result a1 a2 path A r1 ttl1 db)
    as [(h & Hh & Hfirst) | Hfirst]; rewrite Hfirst in Hsecond |- *.
  - cbn [fst] in Hsecond. unfold lock_file in Hsecond, Hfirst.
    destruct (live_lock path b2 db) as [row|] eqn:Hb;
      [case_decide as Hrow|]; try done.
    destruct (live_lock path a2 db) as [row'|] eqn:Ha;
      [case_decide as Hrow'|]; try done.
    apply live_lock_Some in Ha as [Ha _], Hb as [Hb _].
    assert (row' = row) as -> by congruence.
    injection Hsecond as <-. injection Hfirst as <-. done.
  - cbn [fst] in Hsecond. rewrite lock_file_grant in Hsecond; [done|].
    intros row Hrow _. simpl in Hrow. rewrite lookup_insert_eq in Hrow.
    by injection Hrow as <-.
Qed.

(** C6 (release authorization and idempotent no-op).  A release always
    reports [Unlocked path], status ["unlocked"].  It deletes the row of
    [path] exactly when that row's holder is the caller, and touches no
    other row and no other table.  When the row belongs to somebody else,
    or when there is no row, the database is unchanged; a lease of another
    holder that was live stays listed with the same holder, reason and
    expiry. *)
Theorem release_authorization (path agent : string) (db : DB) :
  let db' := (unlock_file path agent db).1 in
  (unlock_file path agent db).2 = Unlocked path ∧
  status (unlock_file path agent db).2 = Some "unlocked"%string ∧
  file_locks db' =
    match file_locks db !! path with
    | Some row => if decide (lock_agent row = agent)
                  then delete path (file_locks db)
                  else file_locks db
    | None => file_locks db
    end ∧
  (∀ q, q ≠ path → file_locks db' !! q = file_locks db !! q) ∧
  messages db' = messages db ∧ agents db' = agents db ∧
  (∀ row, file_locks db !! path = Some row → lock_agent row ≠ agent →
     db' = db ∧
     ∀ now, now < lock_expires_at row → (path, row) ∈ list_locks None now db') ∧
  (file_locks db !! path = None → db' = db).
Proof.
  intros db'. pose proof (unlock_file_locks path agent db) as Hlocks.
  fold db' in Hlocks.
  assert (file_locks db' = file_locks db → db' = db) as Hsame.
  { intros Heq. subst db'. unfold unlock_file in *. simpl in Heq.
    cbn [fst]. rewrite Heq. apply set_file_locks_id. }
  split_and!; try done.
  - intros q Hq. rewrite Hlocks.
    destruct (file_locks db !! path) as [row|]; [case_decide|]; try done.
    by rewrite lookup_delete_ne.
  - intros row Hrow Hne. rewrite Hrow, decide_False in Hlocks by done.
    split; [by apply Hsame|].
    intros now Hlive. apply elem_of_list_locks. by rewrite Hlocks.
  - intros Hnone. rewrite Hnone in Hlocks. by apply Hsame.
Qed.

(** What a release does to the holder's own row. *)
Lemma unlock_file_own path agent db row :
  file_locks db !! path = Some row → lock_agent row = agent →
  file_locks (unlock_file path agent db).1 !! path = None.
Proof.
  intros Hrow Ha. rewrite unlock_file_locks, Hrow, decide_True by done.
  apply lookup_delete_eq.
Qed.

(** C10 (no validation of the time to live), as the code has it.  Take a
    time to live of zero or less whose expiry can be computed, and no live
    lease of another holder on [path].  The acquire is still granted with
    status ["locked"], and the expiry it reports is the one it stores.
    From the first clock reading at or after that expiry on, no listing
    contains a row of [path] and an acquire of [path] by any agent whose
    own expiry can be computed is granted.  When the expiry is the exact
    sum of reading and time to live it is not after the reading it was
    computed from, so all this holds from that reading on. *)
Theorem nonpositive_ttl_lock `{Library} (now1 now2 : Time)
    (path A reason : string) (ttl : Z) (db : DB) (e : Time) :
  ttl ≤ 0 →
  expiry_of now1 ttl = Returns e →
  (∀ row, file_locks db !! path = Some row →
          now2 < lock_expires_at row → lock_agent row = A) →
  let db' := set_file_locks
               (<[path := FileLock A reason e]> (file_locks db)) db in
  lock_file_call now1 now2 path A reason ttl db
  = Returns (db', Locked path e) ∧
  status (Locked path e) = Some "locked"%string ∧
  file_locks db' !! path = Some (FileLock A reason e) ∧
  (∀ filter_by now r, e ≤ now → (path, r) ∉ list_locks filter_by now db') ∧
  (∀ b1 b2 B rB ttlB e', e ≤ b2 →
     expiry_of b1 ttlB = Returns e' →
     ∃ db'', lock_file_call b1 b2 path B rB ttlB db'
             = Returns (db'', Locked path e')) ∧
  (e = now1 + micros ttl → e ≤ now1).
Proof.
  intros Httl He Hfree db'. split_and!.
  - apply lock_file_call_returns. exists e. split; [done|].
    by apply lock_file_at_grant.
  - done.
  - subst db'. simpl. by rewrite lookup_insert_eq.
  - intros filter_by now r Hnow Hin.
    apply elem_of_list_locks in Hin as (Hr & Hlive & _). subst db'.
    simpl in Hr. rewrite lookup_insert_eq in Hr. injection Hr as <-.
    simpl in Hlive. lia.
  - intros b1 b2 B rB ttlB e' Hb He'. eexists.
    apply lock_file_call_returns. exists e'. split; [done|].
    apply lock_file_at_grant. intros r Hr Hlive. subst db'. simpl in Hr.
    rewrite lookup_insert_eq in Hr. injection Hr as <-. simpl in Hlive. lia.
  - intros ->. unfold micros. lia.
Qed.

Lemma nonpositive_ttl_lock_witness :
  let db' := set_file_locks
               (<["src/app.py" := FileLock "claude-1" "edit" 1699999995000000]>
                  (file_locks empty_db)) empty_db in
  @lock_file_call example_library 1700000000000000 1700000000000001
    "src/app.py" "claude-1" "edit" (-5) empty_db
  = Returns (db', Locked "src/app.py" 1699999995000000) ∧
  status (Locked "src/app.py" 1699999995000000) = Some "locked"%string ∧
  file_locks db' !! "src/app.py"
  = Some (FileLock "claude-1" "edit" 1699999995000000) ∧
  (∀ filter_by now r, 1699999995000000 ≤ now →
     ("src/app.py", r) ∉ list_locks filter_by now db') ∧
  (∀ b1 b2 B rB ttlB e', 1699999995000000 ≤ b2 →
     @expiry_of example_library b1 ttlB = Returns e' →
     ∃ db'', @lock_file_call example_library b1 b2 "src/app.py" B rB ttlB db'
             = Returns (db'', Locked "src/app.py" e')) ∧
  (1699999995000000 = 1700000000000000 + micros (-5) →
   1699999995000000 ≤ 1700000000000000).
Proof.
  apply (@nonpositive_ttl_lock example_library 1700000000000000
           1700000000000001 "src/app.py" "claude-1" "edit" (-5) empty_db
           1699999995000000).
  - lia.
  - vm_compute. reflexivity.
  - intros row Hrow. vm_compute in Hrow. discriminate.
Defined.

(** C10 as the specification states it fails: with a time to live so far
    below zero that the expiry is before the year 1, on a path without any
    lease, the call raises; nothing is written and no ["locked"] comes
    back. *)
Lemma nonpositive_ttl_can_raise :
  (-1000000000000 ≤ 0) ∧
  file_locks empty_db !! "src/app.py"%string = None ∧
  (∃ err, @lock_file_call example_library 1700000000000000 1700000000000001
            "src/app.py" "claude-1" "edit" (-1000000000000) empty_db
          = Raises err) ∧
  (∀ db' r, @lock_file_call example_library 1700000000000000 1700000000000001
              "src/app.py" "claude-1" "edit" (-1000000000000) empty_db
            ≠ Returns (db', r)).
Proof.
  split_and!.
  - lia.
  - done.
  - eexists. vm_compute. reflexivity.
  - intros db' r. vm_compute. discriminate.
Qed.

(** ** The message channel *)

Section clock.
Lemma nondecreasing_app t0 l1 l2 :
  nondecreasing t0 (l1 ++ l2) ↔
  nondecreasing t0 l1 ∧ nondecreasing (latest t0 l1) l2.
Proof.
  revert t0. induction l1 as [|t l1 IH]; intros t0; simpl.
  - tauto.
  - rewrite IH. unfold latest. simpl. tauto.
Qed.

Lemma nondecreasing_latest t0 l : nondecreasing t0 l → t0 ≤ latest t0 l.
Proof.
  revert t0. induction l as [|t l IH]; intros t0; simpl; [unfold latest; simpl; lia|].
  intros [Ht Hl]. specialize (IH t Hl). unfold latest in *. simpl. lia.
Qed.

Lemma latest_app t0 l1 l2 : latest t0 (l1 ++ l2) = latest (latest t0 l1) l2.
Proof. unfold latest. apply foldl_app. Qed.

Lemma clock_ok_cons t0 c calls :
  clock_ok t0 (c :: calls) ↔
  nondecreasing t0 (clock_reads c) ∧
  clock_ok (latest t0 (clock_reads c)) calls.
Proof. unfold clock_ok. simpl. apply nondecreasing_app. Qed.

Lemma clock_ok_app t0 calls1 calls2 :
  clock_ok t0 (calls1 ++ calls2) ↔
  clock_ok t0 calls1 ∧
  clock_ok (latest t0 (calls1 ≫= clock_reads)) calls2.
Proof. unfold clock_ok. rewrite bind_app. apply nondecreasing_app. Qed.
End clock.

Section rows.
Implicit Types (m : message) (db : DB) (c : tool_call).

Lemma never_back_refl o : never_back o o.
Proof. destruct o; simpl; lia. Qed.

Lemma never_back_trans o1 o2 o3 :
  never_back o1 o2 → never_back o2 o3 → never_back o1 o3.
Proof. destruct o1, o2, o3; simpl; try done; lia. Qed.

Lemma stamped_by_mono t t' m : t ≤ t' → stamped_by t m → stamped_by t' m.
Proof.
  unfold stamped_by, not_after.
  destruct (msg_read_at m), (msg_ack_at m); lia.
Qed.

Lemma sql_update_lookup (cond : message → Prop) `{∀ m, Decision (cond m)}
    (f : message → message) (rows : list message) (i : nat) m :
  rows !! i = Some m →
  sql_update cond f rows !! i = Some (if decide (cond m) then f m else m).
Proof. intros Hi. unfold sql_update. by rewrite list_lookup_fmap, Hi. Qed.

Lemma sql_update_ids (cond : message → Prop) `{∀ m, Decision (cond m)}
    (f : message → message) (rows : list message) :
  (∀ m, msg_id (f m) = msg_id m) →
  msg_id <$> sql_update cond f rows = msg_id <$> rows.
Proof.
  intros Hf. unfold sql_update. rewrite <- list_fmap_compose.
  apply list_fmap_ext. intros i m _. simpl. case_decide; [apply Hf | done].
Qed.

Lemma sql_update_none (cond : message → Prop) `{∀ m, Decision (cond m)}
    (f : message → message) (rows : list message) :
  (∀ m, m ∈ rows → ¬ cond m) → sql_update cond f rows = rows.
Proof.
  intros Hno. unfold sql_update. rewrite <- (list_fmap_id rows) at 2.
  apply list_fmap_ext. intros i m Hi. simpl.
  rewrite decide_False; [done|]. apply Hno. by eapply list_elem_of_lookup_2.
Qed.

(** Every call leaves the rows that are in [messages] in their places
    and changes them as [row_step] says. *)
Lemma handle_tool_call_lookup c db (i : nat) m :
  messages db !! i = Some m →
  messages (handle_tool_call c db).1 !! i = Some (row_step c m).
Proof.
  intros Hi. destruct c; simpl; try done.
  - by apply lookup_app_l_Some.
  - by apply sql_update_lookup.
  - by apply sql_update_lookup.
  - destruct (lock_file_result now1 now2 path agent reason ttl_seconds db)
      as [(h & _ & ->) | ->]; done.
Qed.

Lemma row_step_static c m :
  let m' := row_step c m in
  msg_id m' = msg_id m ∧ msg_sender m' = msg_sender m ∧
  msg_recipient m' = msg_recipient m ∧ msg_subject m' = msg_subject m ∧
  msg_body m' = msg_body m ∧ msg_thread_id m' = msg_thread_id m ∧
  msg_created_at m' = msg_created_at m.
Proof. destruct c; simpl; try case_decide; done. Qed.

(** One call under a clock that does not go back. *)
Lemma row_step_stamps c t0 m :
  nondecreasing t0 (clock_reads c) →
  stamped_by t0 m →
  let m' := row_step c m in
  never_back (msg_read_at m) (msg_read_at m') ∧
  never_back (msg_ack_at m) (msg_ack_at m') ∧
  stamped_by (latest t0 (clock_reads c)) m' ∧
  (acked_is_read m → acked_is_read m').
Proof.
  intros Hclock Hst.
  pose proof (nondecreasing_latest _ _ Hclock) as Hlast.
  assert (never_back (msg_read_at m) (msg_read_at m) ∧
          never_back (msg_ack_at m) (msg_ack_at m) ∧
          stamped_by (latest t0 (clock_reads c)) m ∧
          (acked_is_read m → acked_is_read m)) as Hsame.
  { split_and!; [apply never_back_refl.. | by eapply stamped_by_mono | done]. }
  destruct c; simpl in *; try done; case_decide; try done.
  - unfold stamped_by, acked_is_read, not_after in *. simpl.
    destruct (msg_read_at m), (msg_ack_at m); simpl; split_and!; try done; lia.
  - unfold stamped_by, acked_is_read, not_after in *. simpl.
    destruct (msg_read_at m), (msg_ack_at m); simpl; split_and!; try done; lia.
Qed.

Lemma serve_cons c calls db :
  serve (c :: calls) db = serve calls (handle_tool_call c db).1.
Proof. done. Qed.

Lemma serve_app calls1 calls2 db :
  serve (calls1 ++ calls2) db = serve calls2 (serve calls1 db).
Proof. unfold serve. apply foldl_app. Qed.

(** Any run under a clock that does not go back. *)
Lemma serve_row t0 calls db (i : nat) m :
  clock_ok t0 calls →
  messages db !! i = Some m →
  stamped_by t0 m →
  ∃ m', messages (serve calls db) !! i = Some m' ∧
        msg_id m' = msg_id m ∧ msg_recipient m' = msg_recipient m ∧
        never_back (msg_read_at m) (msg_read_at m') ∧
        never_back (msg_ack_at m) (msg_ack_at m') ∧
        stamped_by (latest t0 (calls ≫= clock_reads)) m' ∧
        (acked_is_read m → acked_is_read m').
Proof.
  revert t0 db m. induction calls as [|c calls IH]; intros t0 db m Hclock Hi Hst.
  - exists m. split_and!; try done; apply never_back_refl.
  - apply clock_ok_cons in Hclock as [Hc Hrest].
    destruct (row_step_stamps c t0 m Hc Hst) as (Hr & Ha & Hst' & Har).
    destruct (row_step_static c m) as (Hid & _ & Hrcp & _).
    destruct (IH _ _ _ Hrest (handle_tool_call_lookup c db i m Hi) Hst')
      as (m' & Hi' & Hid' & Hrcp' & Hr' & Ha' & Hst'' & Har').
    exists m'. rewrite serve_cons. simpl. rewrite latest_app.
    split_and!; try done; try congruence.
    + by eapply never_back_trans.
    + by eapply never_back_trans.
    + auto.
Qed.
End rows.

Section order.
Implicit Types (m : message) (db : DB) (c : tool_call)
  (calls : list tool_call).

Lemma row_after_cons c calls m :
  row_after (c :: calls) m = row_after calls (row_step c m).
Proof. done. Qed.

Lemma row_after_app calls1 calls2 m :
  row_after (calls1 ++ calls2) m = row_after calls2 (row_after calls1 m).
Proof. unfold row_after. apply foldl_app. Qed.

(** A run changes a row that is in the table as [row_after] says. *)
Lemma serve_lookup calls db (i : nat) m :
  messages db !! i = Some m →
  messages (serve calls db) !! i = Some (row_after calls m).
Proof.
  revert db m. induction calls as [|c calls IH]; intros db m Hi; [done|].
  rewrite serve_cons, row_after_cons. by apply IH, handle_tool_call_lookup.
Qed.

Lemma row_after_stamps t0 calls m :
  clock_ok t0 calls →
  stamped_by t0 m →
  msg_id (row_after calls m) = msg_id m ∧
  msg_recipient (row_after calls m) = msg_recipient m ∧
  never_back (msg_read_at m) (msg_read_at (row_after calls m)) ∧
  never_back (msg_ack_at m) (msg_ack_at (row_after calls m)) ∧
  stamped_by (latest t0 (calls ≫= clock_reads)) (row_after calls m) ∧
  (acked_is_read m → acked_is_read (row_after calls m)).
Proof.
  revert t0 m. induction calls as [|c calls IH]; intros t0 m Hclock Hst.
  - split_and!; try done; apply never_back_refl.
  - apply clock_ok_cons in Hclock as [Hc Hrest].
    destruct (row_step_stamps c t0 m Hc Hst) as (Hr & Ha & Hst' & Har).
    destruct (row_step_static c m) as (Hid & _ & Hrcp & _).
    destruct (IH _ _ Hrest Hst') as (Hid' & Hrcp' & Hr' & Ha' & Hst'' & Har').
    rewrite row_after_cons. simpl. rewrite latest_app.
    split_and!; try done; try congruence.
    + by eapply never_back_trans.
    + by eapply never_back_trans.
    + auto.
Qed.

(** One call keeps [read_at ≤ ack_at] exactly when it is one of
    [keeps_order]. *)
Lemma row_step_order c t0 m :
  nondecreasing t0 (clock_reads c) →
  stamped_by t0 m →
  read_le_ack m →
  (read_le_ack (row_step c m) ↔ keeps_order c m).
Proof.
  intros Hclock [Hread Hack] Horder.
  destruct c; simpl in *; try tauto; case_decide as Haddr; try tauto;
    unfold read_le_ack, not_after in *; simpl;
    destruct (msg_read_at m), (msg_ack_at m); simpl in *;
    split; intros; try done; try lia; tauto.
Qed.

(** An acknowledgement that reaches the row puts it in order when the row
    was read before, or when the second reading is not after the first;
    this does not depend on what the row was like. *)
Lemma set_ack_order now1 now2 t0 m :
  t0 ≤ now1 →
  stamped_by t0 m →
  now2 ≤ now1 ∨ is_Some (msg_read_at m) →
  read_le_ack (set_ack now1 now2 m).
Proof.
  intros Hnow [Hread _] Hcase. unfold read_le_ack, not_after in *. simpl.
  destruct (msg_read_at m) as [r|]; simpl; [lia|].
  destruct Hcase as [?|[? ?]]; [lia|done].
Qed.

(** A run without a [mark_read] of a row that has been read keeps the
    order. *)
Lemma order_kept_without_mark_read calls m :
  is_Some (msg_read_at m) →
  Forall (λ c, ¬ marks_read (msg_id m) (msg_recipient m) c) calls →
  order_kept calls m.
Proof.
  revert m. induction calls as [|c calls IH]; intros m Hread Hcalls; [done|].
  apply Forall_cons in Hcalls as [Hc Hcalls].
  destruct (row_step_static c m) as (Hid & _ & Hrcp & _).
  split.
  - destruct c; simpl in *; try done.
    + intros [? ?]. destruct Hc. done.
    + intros _. by destruct Hread as [r ->].
  - apply IH.
    + destruct c; simpl; try done; case_decide; try done; simpl; eauto.
    + by rewrite Hid, Hrcp.
Qed.

Lemma row_after_order t0 calls m :
  clock_ok t0 calls →
  stamped_by t0 m →
  read_le_ack m →
  order_kept calls m →
  read_le_ack (row_after calls m).
Proof.
  revert t0 m. induction calls as [|c calls IH];
    intros t0 m Hclock Hst Horder Hkept; [done|].
  apply clock_ok_cons in Hclock as [Hc Hrest]. destruct Hkept as [Hk Hkept].
  destruct (row_step_stamps c t0 m Hc Hst) as (_ & _ & Hst' & _).
  rewrite row_after_cons. eapply IH; try done.
  by apply (row_step_order c t0 m).
Qed.
End order.

(** C2 (time stamps of a message), as the code has it.  Take any run of
    calls under a clock that does not go back, and a row whose time stamps
    were taken before the run.  The row stays in its place with its
    identifier and recipient; [read_at], once set, stays set and does not
    decrease, and so does [ack_at]; an acknowledged row stays a read row.
    [read_at ≤ ack_at] is kept by every call but two: a [mark_read] by the
    recipient of a row that is acknowledged, which writes its own later
    reading into [read_at], and an acknowledgement of an unread row whose
    reading for [read_at] is after its reading for [ack_at].  So the order
    holds at the end of a run without such calls when it held at the
    start, and it holds at the end whenever the run has an
    acknowledgement by the recipient, of a row that was read or with a
    second reading not after the first, and no such call after it. *)
Theorem message_timestamps_monotone (t0 : Time) (calls : list tool_call)
    (db : DB) (i : nat) (m : message) :
  clock_ok t0 calls →
  messages db !! i = Some m →
  stamped_by t0 m →
  let m' := row_after calls m in
  messages (serve calls db) !! i = Some m' ∧
  msg_id m' = msg_id m ∧ msg_recipient m' = msg_recipient m ∧
  never_back (msg_read_at m) (msg_read_at m') ∧
  never_back (msg_ack_at m) (msg_ack_at m') ∧
  (acked_is_read m → acked_is_read m') ∧
  (read_le_ack m → order_kept calls m → read_le_ack m') ∧
  (∀ calls0 now1 now2 calls1,
     calls = calls0
             ++ ToolAck now1 now2 (msg_id m) (msg_recipient m) :: calls1 →
     now2 ≤ now1 ∨ is_Some (msg_read_at (row_after calls0 m)) →
     order_kept calls1
       (row_after (calls0 ++ [ToolAck now1 now2 (msg_id m) (msg_recipient m)])
                  m) →
     read_le_ack m') ∧
  (∀ calls0 now1 now2 calls1,
     calls = calls0
             ++ ToolAck now1 now2 (msg_id m) (msg_recipient m) :: calls1 →
     now2 ≤ now1 ∨ is_Some (msg_read_at (row_after calls0 m)) →
     Forall (λ c, ¬ marks_read (msg_id m) (msg_recipient m) c) calls1 →
     read_le_ack m').
Proof.
  intros Hclock Hi Hst m'.
  destruct (row_after_stamps t0 calls m Hclock Hst)
    as (Hid & Hrcp & Hr & Ha & _ & Har).
  assert (∀ calls0 now1 now2 calls1,
            calls = calls0
                    ++ ToolAck now1 now2 (msg_id m) (msg_recipient m) :: calls1 →
            now2 ≤ now1 ∨ is_Some (msg_read_at (row_after calls0 m)) →
            order_kept calls1
              (row_after
                 (calls0 ++ [ToolAck now1 now2 (msg_id m) (msg_recipient m)]) m) →
            read_le_ack m') as Hestablished.
  { intros calls0 now1 now2 calls1 -> Hcase Hkept. subst m'.
    apply clock_ok_app in Hclock as [Hclock0 Hclock1].
    apply clock_ok_cons in Hclock1 as [Hack Hclock1].
    destruct (row_after_stamps t0 calls0 m Hclock0 Hst)
      as (Hid0 & Hrcp0 & _ & _ & Hst0 & _).
    set (ack := ToolAck now1 now2 (msg_id m) (msg_recipient m)) in *.
    destruct (row_step_stamps ack _ _ Hack Hst0) as (_ & _ & Hst1 & _).
    rewrite row_after_app, row_after_cons.
    rewrite row_after_app in Hkept. change (row_after [ack] ?r)
      with (row_step ack r) in Hkept.
    eapply row_after_order; try done.
    subst ack. simpl. rewrite decide_True by done.
    simpl in Hack. eapply set_ack_order; [|done..]. lia. }
  split_and!; try done.
  - by apply serve_lookup.
  - by apply (row_after_order t0).
  - intros calls0 now1 now2 calls1 Hcalls Hcase Hnone.
    apply (Hestablished calls0 now1 now2 calls1 Hcalls Hcase).
    assert (clock_ok t0 calls0) as Hclock0.
    { rewrite Hcalls in Hclock. by apply clock_ok_app in Hclock as [? _]. }
    destruct (row_after_stamps t0 calls0 m Hclock0 Hst)
      as (Hid0 & Hrcp0 & _).
    rewrite row_after_app.
    change (row_after [?c] ?r) with (row_step c r).
    apply order_kept_without_mark_read.
    + simpl. rewrite decide_True by done. simpl. eauto.
    + destruct (row_step_static
                  (ToolAck now1 now2 (msg_id m) (msg_recipient m))
                  (row_after calls0 m)) as (Hid1 & _ & Hrcp1 & _).
      cbv zeta in Hid1, Hrcp1. by rewrite Hid1, Hrcp1, Hid0, Hrcp0.
Qed.

Lemma message_timestamps_monotone_witness :
  let db := (send_message 5000000 "claude-1" "opencode-1" "[TASK]" "go" None
               empty_db).1 in
  let m := Message 1 "claude-1" "opencode-1" "[TASK]" "go" None 5 None None in
  let calls := [ToolMarkRead 7000000 1 "opencode-1";
                ToolAck 9000000 9000001 1 "opencode-1";
                ToolSend 9500000 "opencode-1" "claude-1" "[DONE]" "ok" None;
                ToolAck 9800000 9800002 1 "opencode-1"] in
  let m' := row_after calls m in
  messages (serve calls db) !! 0%nat = Some m' ∧
  msg_id m' = msg_id m ∧ msg_recipient m' = msg_recipient m ∧
  never_back (msg_read_at m) (msg_read_at m') ∧
  never_back (msg_ack_at m) (msg_ack_at m') ∧
  (acked_is_read m → acked_is_read m') ∧
  (read_le_ack m → order_kept calls m → read_le_ack m') ∧
  (∀ calls0 now1 now2 calls1,
     calls = calls0
             ++ ToolAck now1 now2 (msg_id m) (msg_recipient m) :: calls1 →
     now2 ≤ now1 ∨ is_Some (msg_read_at (row_after calls0 m)) →
     order_kept calls1
       (row_after (calls0 ++ [ToolAck now1 now2 (msg_id m) (msg_recipient m)])
                  m) →
     read_le_ack m') ∧
  (∀ calls0 now1 now2 calls1,
     calls = calls0
             ++ ToolAck now1 now2 (msg_id m) (msg_recipient m) :: calls1 →
     now2 ≤ now1 ∨ is_Some (msg_read_at (row_after calls0 m)) →
     Forall (λ c, ¬ marks_read (msg_id m) (msg_recipient m) c) calls1 →
     read_le_ack m').
Proof.
  intros db m calls.
  apply (message_timestamps_monotone 5000000 calls db 0 m).
  - unfold clock_ok. simpl. lia.
  - vm_compute. reflexivity.
  - vm_compute. tauto.
Defined.

(** C2 as the specification states it fails: an acknowledgement at one
    instant followed by a [mark_read] at a later instant, both by the
    recipient and under an advancing clock, leaves [read_at] after
    [ack_at]. *)
Lemma mark_read_after_ack_reorders :
  let db := (send_message 5000000 "claude-1" "opencode-1" "[TASK]" "go" None
               empty_db).1 in
  let calls := [ToolAck 7000000 7000000 1 "opencode-1";
                ToolMarkRead 9000000 1 "opencode-1"] in
  let m' := Message 1 "claude-1" "opencode-1" "[TASK]" "go" None 5
                    (Some 9000000) (Some 7000000) in
  clock_ok 5000000 calls ∧
  messages (serve calls db) = [m'] ∧
  ¬ read_le_ack m'.
Proof.
  split_and!.
  - unfold clock_ok. simpl. lia.
  - vm_compute. reflexivity.
  - unfold read_le_ack. simpl. lia.
Qed.

(** The acknowledgement of an unread row, in general: [ack_at] is the
    first reading and [read_at] the second. *)
Lemma ack_message_unread (now1 now2 : Time) (db : DB) (i : nat) (m : message) :
  messages db !! i = Some m →
  msg_read_at m = None →
  messages (ack_message now1 now2 (msg_id m) (msg_recipient m) db).1 !! i
  = Some (Message (msg_id m) (msg_sender m) (msg_recipient m) (msg_subject m)
                  (msg_body m) (msg_thread_id m) (msg_created_at m)
                  (Some now2) (Some now1)).
Proof.
  intros Hi Hunread. simpl. rewrite (sql_update_lookup _ _ _ _ _ Hi).
  rewrite decide_True by done. unfold set_ack. by rewrite Hunread.
Qed.

(** When the two readings agree the fill-in is the acknowledgement time. *)
Lemma ack_message_unread_same_reading (now : Time) (db : DB) (i : nat)
    (m : message) :
  messages db !! i = Some m →
  msg_read_at m = None →
  ∃ m', messages (ack_message now now (msg_id m) (msg_recipient m) db).1 !! i
        = Some m' ∧ msg_read_at m' = Some now ∧ msg_ack_at m' = Some now.
Proof.
  intros Hi Hunread. eexists. split; [by apply ack_message_unread|done].
Qed.

(** C3 (acknowledgement fill-in), at an input where the code departs from
    it.  A message is sent and at once acknowledged by its recipient; the
    clock moves by one microsecond between the two readings that
    [ack_message] takes.  The row ends with [ack_at] at the first reading
    and [read_at] at the second, so the two differ and [read_at] is the
    later one. *)
Theorem ack_backfill_two_readings :
  let calls := [ToolSend 5000000 "claude-1" "opencode-1" "[TASK]" "go" None;
                ToolAck 7000000 7000001 1 "opencode-1"] in
  let m' := Message 1 "claude-1" "opencode-1" "[TASK]" "go" None 5
                    (Some 7000001) (Some 7000000) in
  clock_ok 0 calls ∧
  messages (serve calls empty_db) = [m'] ∧
  msg_read_at m' ≠ msg_ack_at m' ∧
  ¬ read_le_ack m'.
Proof.
  split_and!.
  - unfold clock_ok. simpl. lia.
  - vm_compute. reflexivity.
  - discriminate.
  - unfold read_le_ack. simpl. lia.
Qed.

(** C8 (isolation between recipients).  Let [m] be a row of [messages]
    and [B] an agent other than its recipient.  [mark_read] and
    [ack_message] called by [B] with the identifier of [m] leave the row
    as it is, whole, and report success.  When identifiers are unique, as
    they are in a table filled by [send_message], the calls leave the
    whole database as it is. *)
Theorem cross_recipient_isolation (now now1 now2 : Time) (db : DB) (i : nat)
    (m : message) (B : string) :
  messages db !! i = Some m →
  B ≠ msg_recipient m →
  messages (mark_read now (msg_id m) B db).1 !! i = Some m ∧
  (mark_read now (msg_id m) B db).2 = Read (msg_id m) ∧
  status (mark_read now (msg_id m) B db).2 = Some "read"%string ∧
  messages (ack_message now1 now2 (msg_id m) B db).1 !! i = Some m ∧
  (ack_message now1 now2 (msg_id m) B db).2 = Acknowledged (msg_id m) ∧
  status (ack_message now1 now2 (msg_id m) B db).2 = Some "acknowledged"%string ∧
  (NoDup (msg_id <$> messages db) →
     (mark_read now (msg_id m) B db).1 = db ∧
     (ack_message now1 now2 (msg_id m) B db).1 = db).
Proof.
  intros Hi HB.
  assert (¬ addressed (msg_id m) B m) as Hnot by (intros [_ ?]; congruence).
  split_and!; try done.
  - simpl. rewrite (sql_update_lookup _ _ _ _ _ Hi). by rewrite decide_False.
  - simpl. rewrite (sql_update_lookup _ _ _ _ _ Hi). by rewrite decide_False.
  - intros Hnodup.
    assert (∀ m2, m2 ∈ messages db → ¬ addressed (msg_id m) B m2) as Hnone.
    { intros m2 Hin [Hid Hrcp].
      apply list_elem_of_lookup in Hin as [j Hj].
      assert (i = j) as ->.
      { eapply NoDup_lookup; [exact Hnodup| |];
          rewrite list_lookup_fmap; [by rewrite Hi | by rewrite Hj, <- Hid]. }
      congruence. }
    unfold mark_read, ack_message. cbn [fst].
    rewrite !sql_update_none by done. by destruct db.
Qed.

Lemma cross_recipient_isolation_witness :
  let db := (send_message 5000000 "claude-1" "opencode-1" "[TASK]" "go" None
               empty_db).1 in
  let m := Message 1 "claude-1" "opencode-1" "[TASK]" "go" None 5 None None in
  messages (mark_read 7000000 (msg_id m) "intruder" db).1 !! 0%nat = Some m ∧
  (mark_read 7000000 (msg_id m) "intruder" db).2 = Read (msg_id m) ∧
  status (mark_read 7000000 (msg_id m) "intruder" db).2 = Some "read"%string ∧
  messages (ack_message 8000000 8000001 (msg_id m) "intruder" db).1 !! 0%nat
  = Some m ∧
  (ack_message 8000000 8000001 (msg_id m) "intruder" db).2
  = Acknowledged (msg_id m) ∧
  status (ack_message 8000000 8000001 (msg_id m) "intruder" db).2
  = Some "acknowledged"%string ∧
  (NoDup (msg_id <$> messages db) →
     (mark_read 7000000 (msg_id m) "intruder" db).1 = db ∧
     (ack_message 8000000 8000001 (msg_id m) "intruder" db).1 = db).
Proof.
  intros db m.
  apply (cross_recipient_isolation 7000000 8000000 8000001 db 0 m "intruder").
  - vm_compute. reflexivity.
  - discriminate.
Defined.

(** ** Identifiers *)

Section rowids.
Implicit Types (m : message) (db : DB) (rows : list message).

Lemma max_rowid_bound rows m :
  m ∈ rows → ∃ k, max_rowid rows = Some k ∧ msg_id m ≤ k.
Proof.
  induction rows as [|m0 rows IH]; [by intros ?%elem_of_nil|].
  intros [->|Hin]%elem_of_cons; simpl.
  - destruct (max_rowid rows); eexists; split; try done; lia.
  - destruct (IH Hin) as (k & -> & Hk). eexists. split; [done|]. lia.
Qed.

Lemma max_rowid_ids rows1 rows2 :
  msg_id <$> rows1 = msg_id <$> rows2 → max_rowid rows1 = max_rowid rows2.
Proof.
  revert rows2. induction rows1 as [|m1 rows1 IH]; intros [|m2 rows2];
    try done.
  intros [= Hhd Htl]. simpl. by rewrite (IH _ Htl), Hhd.
Qed.

Lemma max_rowid_snoc rows m :
  max_rowid (rows ++ [m]) =
  Some (match max_rowid rows with
        | None => msg_id m
        | Some k => Z.max k (msg_id m)
        end).
Proof.
  induction rows as [|m0 rows IH]; [done|].
  simpl. rewrite IH. destruct (max_rowid rows); f_equal; lia.
Qed.

(** The next identifier is above every identifier in the table. *)
Lemma new_rowid_above db m : m ∈ messages db → msg_id m < new_rowid db.
Proof.
  intros Hin. unfold new_rowid.
  destruct (max_rowid_bound _ _ Hin) as (k & -> & Hk). lia.
Qed.

Lemma new_rowid_send now sender recipient subject body thread_id db :
  new_rowid (send_message now sender recipient subject body thread_id db).1
  = new_rowid db + 1.
Proof.
  unfold new_rowid at 1. simpl. rewrite max_rowid_snoc. simpl.
  unfold new_rowid. destruct (max_rowid (messages db)); lia.
Qed.

(** The identifiers in the table after a call: a send adds the next
    identifier at the end, no other call changes them. *)
Lemma handle_tool_call_ids c db :
  msg_id <$> messages (handle_tool_call c db).1 =
  (msg_id <$> messages db) ++
  match c with
  | ToolSend _ _ _ _ _ _ => [new_rowid db]
  | _ => []
  end.
Proof.
  destruct c; simpl; rewrite ?app_nil_r; try done.
  - by rewrite fmap_app.
  - by apply sql_update_ids.
  - by apply sql_update_ids.
  - destruct (lock_file_result now1 now2 path agent reason ttl_seconds db)
      as [(h & _ & ->) | ->]; done.
Qed.

Lemma handle_tool_call_seq c db :
  messages_seq (handle_tool_call c db).1 =
  match c with
  | ToolSend _ _ _ _ _ _ => new_rowid db
  | _ => messages_seq db
  end.
Proof.
  destruct c; simpl; try done.
  destruct (lock_file_result now1 now2 path agent reason ttl_seconds db)
    as [(h & _ & ->) | ->]; done.
Qed.

Lemma new_rowid_handle c db :
  new_rowid db ≤ new_rowid (handle_tool_call c db).1.
Proof.
  destruct c;
    try (unfold new_rowid at 2;
         rewrite handle_tool_call_seq,
           (max_rowid_ids _ (messages db))
           by (rewrite handle_tool_call_ids; apply app_nil_r);
         fold (new_rowid db); lia).
  simpl handle_tool_call. rewrite new_rowid_send. lia.
Qed.

Lemma new_rowid_serve calls db : new_rowid db ≤ new_rowid (serve calls db).
Proof.
  revert db. induction calls as [|c calls IH]; intros db; [done|].
  rewrite serve_cons. etrans; [apply (new_rowid_handle c)|apply IH].
Qed.

Lemma handle_tool_call_NoDup c db :
  NoDup (msg_id <$> messages db) →
  NoDup (msg_id <$> messages (handle_tool_call c db).1).
Proof.
  intros Hnodup. rewrite handle_tool_call_ids.
  destruct c; rewrite ?app_nil_r; try done.
  apply NoDup_app. split_and!; [done| |apply NoDup_singleton].
  intros k (m & Hk & Hin)%list_elem_of_fmap Hnew%list_elem_of_singleton.
  pose proof (new_rowid_above db m Hin). lia.
Qed.

Lemma serve_NoDup calls db :
  NoDup (msg_id <$> messages db) →
  NoDup (msg_id <$> messages (serve calls db)).
Proof.
  revert db. induction calls as [|c calls IH]; intros db Hnodup; [done|].
  rewrite serve_cons. by apply IH, handle_tool_call_NoDup.
Qed.
End rowids.

(** C9 (what a send leaves behind).  For every sender, recipient,
    subject, body and thread, on every database: the call returns [Sent]
    with the next identifier, the table is the old table followed by one
    row that carries the arguments, that identifier, and empty [read_at]
    and [ack_at]; no other table changes.  The identifier is above every
    identifier in the table, so unique identifiers stay unique, and every
    table built from the empty database has unique identifiers.  A send
    that comes later, after any calls, returns a larger identifier.  The
    table of registered agents has no influence on the outcome. *)
Theorem send_postcondition (now : Time) (sender recipient subject body : string)
    (thread_id : option string) (db : DB) :
  let sent := send_message now sender recipient subject body thread_id db in
  let id := new_rowid db in
  let row := Message id sender recipient subject body thread_id
                     (now `div` 1000000) None None in
  sent.2 = Sent id ∧
  status sent.2 = Some "sent"%string ∧
  messages sent.1 = messages db ++ [row] ∧
  msg_read_at row = None ∧ msg_ack_at row = None ∧
  agents sent.1 = agents db ∧ file_locks sent.1 = file_locks db ∧
  (∀ m, m ∈ messages db → msg_id m < id) ∧
  (NoDup (msg_id <$> messages db) → NoDup (msg_id <$> messages sent.1)) ∧
  (∀ calls, NoDup (msg_id <$> messages (serve calls empty_db))) ∧
  (∀ calls now' sender' recipient' subject' body' thread_id',
     ∃ id', (send_message now' sender' recipient' subject' body' thread_id'
               (serve calls sent.1)).2 = Sent id' ∧ id < id') ∧
  (∀ registry,
     (send_message now sender recipient subject body thread_id
        (set_agents registry db)).2 = sent.2 ∧
     messages (send_message now sender recipient subject body thread_id
                 (set_agents registry db)).1 = messages sent.1).
Proof.
  intros sent id row. split_and!; try done.
  - intros m Hin. by apply new_rowid_above.
  - intros Hnodup.
    apply (handle_tool_call_NoDup
             (ToolSend now sender recipient subject body thread_id) db Hnodup).
  - intros calls. apply serve_NoDup. simpl. apply NoDup_nil_2.
  - intros calls now' sender' recipient' subject' body' thread_id'.
    eexists. split; [done|].
    pose proof (new_rowid_serve calls sent.1) as Hle.
    subst sent. rewrite new_rowid_send in Hle. subst id. lia.
Qed.

(** ** The inbox *)

Section inbox.
Implicit Types (m : message) (db : DB) (rows : list message).

Lemma insert_newer_Permutation m rows : insert_newer m rows ≡ₚ m :: rows.
Proof.
  induction rows as [|y rows IH]; [done|]. simpl. case_decide; [done|].
  rewrite IH. apply Permutation_swap.
Qed.

Lemma order_by_created_at_Permutation rows : order_by_created_at rows ≡ₚ rows.
Proof.
  induction rows as [|m rows IH]; [done|]. simpl.
  by rewrite insert_newer_Permutation, IH.
Qed.

Lemma insert_newer_sorted m rows :
  StronglySorted newer_first rows →
  StronglySorted newer_first (insert_newer m rows).
Proof.
  induction rows as [|y rows IH]; simpl.
  - intros _. by repeat constructor.
  - intros [Hy Hrows]%StronglySorted_cons. case_decide as Hle.
    + apply StronglySorted_cons. split; [|by apply StronglySorted_cons].
      constructor; [done|]. eapply Forall_impl; [exact Hy|].
      intros z Hz. unfold newer_first in *. lia.
    + apply StronglySorted_cons. split; [|by apply IH].
      rewrite insert_newer_Permutation. constructor; [|done].
      unfold newer_first. lia.
Qed.

Lemma order_by_created_at_sorted rows :
  StronglySorted newer_first (order_by_created_at rows).
Proof.
  induction rows as [|m rows IH]; [constructor|]. simpl.
  by apply insert_newer_sorted.
Qed.

(** The rows of one second come out in the order in which they went in. *)
Lemma insert_newer_same_second (second : Z) m rows :
  filter (λ r, msg_created_at r = second) (insert_newer m rows)
  = filter (λ r, msg_created_at r = second) (m :: rows).
Proof.
  induction rows as [|y rows IH]; [done|]. simpl. case_decide as Hle; [done|].
  rewrite (filter_cons _ y (insert_newer m rows)), IH.
  rewrite !filter_cons. repeat case_decide; try done; lia.
Qed.

Lemma order_by_created_at_stable (second : Z) rows :
  filter (λ r, msg_created_at r = second) (order_by_created_at rows)
  = filter (λ r, msg_created_at r = second) rows.
Proof.
  induction rows as [|m rows IH]; [done|]. simpl.
  rewrite insert_newer_same_second, !filter_cons. by rewrite IH.
Qed.

(** The query string is put together in two steps; the rows it selects
    are those of [in_inbox]. *)
Lemma fetch_inbox_selection (agent : string) (unread_only : bool)
    (limit : Z) db :
  fetch_inbox agent unread_only limit db =
  sql_limit limit
    (order_by_created_at (filter (in_inbox agent unread_only) (messages db))).
Proof.
  unfold fetch_inbox. do 2 f_equal. destruct unread_only.
  - rewrite list_filter_filter. apply list_filter_iff.
    intros m. unfold in_inbox. tauto.
  - apply list_filter_iff. intros m. unfold in_inbox. split; [|tauto].
    intros Hr. split; [done|discriminate].
Qed.

Lemma sql_limit_prefix {A} (limit : Z) (l : list A) :
  ∃ rest, l = sql_limit limit l ++ rest.
Proof.
  unfold sql_limit. case_decide.
  - exists []. by rewrite app_nil_r.
  - exists (drop (Z.to_nat limit) l). by rewrite take_drop.
Qed.

Lemma sql_limit_length {A} (limit : Z) (l : list A) :
  0 ≤ limit → length (sql_limit limit l) = (Z.to_nat limit `min` length l)%nat.
Proof.
  intros Hlimit. unfold sql_limit. rewrite decide_False by lia.
  apply length_take.
Qed.
End inbox.

(** C7 (inbox selection and order), as the code has it.  The call
    returns for a limit of 64 bits and raises [OverflowError] for any
    other.  The result is the selection [recipient = agent], narrowed to
    unread rows when [unread_only] is set, ordered by [created_at], the
    later second first, and then cut by [LIMIT].  [created_at] counts
    whole seconds: the rows of one second stay in the order of the table,
    the one sent first in front.  Every returned row is a row of the table
    with that recipient (and unread when asked for); for a limit of zero
    or more the result is the first [limit] rows of the ordered selection,
    at most [limit] of them: exactly [limit], or the whole selection when
    that is shorter.  With the defaults that is at most 20 rows.  A
    negative limit cuts nothing. *)
Theorem inbox_filter_order (agent : string) (unread_only : bool) (limit : Z)
    (db : DB) :
  let rows := fetch_inbox agent unread_only limit db in
  let selection := filter (in_inbox agent unread_only) (messages db) in
  let ordered := order_by_created_at selection in
  fetch_inbox_call agent unread_only limit db
  = (if decide (-9223372036854775808 ≤ limit < 9223372036854775808)
     then Returns rows
     else Raises (OverflowError
                    "Python int too large to convert to SQLite INTEGER")) ∧
  ordered ≡ₚ selection ∧
  StronglySorted newer_first ordered ∧
  (∀ second,
     filter (λ m, msg_created_at m = second) ordered
     = filter (λ m, msg_created_at m = second) selection) ∧
  rows = sql_limit limit ordered ∧
  (∀ m, m ∈ rows →
     m ∈ messages db ∧ msg_recipient m = agent ∧
     (unread_only = true → msg_read_at m = None)) ∧
  StronglySorted newer_first rows ∧
  (0 ≤ limit →
     rows = take (Z.to_nat limit) ordered ∧
     Z.of_nat (length rows) ≤ limit ∧
     length rows = (Z.to_nat limit `min` length selection)%nat) ∧
  (limit < 0 → rows = ordered) ∧
  (length (fetch_inbox_default agent db) ≤ 20)%nat.
Proof.
  intros rows selection ordered.
  assert (ordered ≡ₚ selection) as Hperm
    by apply order_by_created_at_Permutation.
  assert (StronglySorted newer_first ordered) as Hsorted
    by apply order_by_created_at_sorted.
  assert (rows = sql_limit limit ordered) as Hrows
    by apply fetch_inbox_selection.
  destruct (sql_limit_prefix limit ordered) as [rest Hrest].
  rewrite <- Hrows in Hrest.
  split_and!; try done.
  - unfold fetch_inbox_call, sqlite_int. by case_decide.
  - intros second. apply order_by_created_at_stable.
  - intros m Hin.
    assert (m ∈ selection) as Hsel.
    { rewrite <- Hperm, Hrest. apply elem_of_app. by left. }
    apply list_elem_of_filter in Hsel as [[Hrcp Hunread] Hdb]. done.
  - rewrite Hrest in Hsorted. by eapply StronglySorted_app_1_l.
  - intros Hlimit.
    assert (length rows = (Z.to_nat limit `min` length selection)%nat) as Hlen.
    { rewrite Hrows, sql_limit_length by done. by rewrite Hperm. }
    split_and!; [|lia|done].
    rewrite Hrows. unfold sql_limit. by rewrite decide_False by lia.
  - intros Hlimit. rewrite Hrows. unfold sql_limit. by rewrite decide_True.
  - unfold fetch_inbox_default. rewrite fetch_inbox_selection.
    rewrite sql_limit_length by lia. lia.
Qed.

(** C7 as the specification states it fails twice.  Three messages are
    sent to one agent in three different seconds and the inbox is asked
    for with limit [-1]: all three come back, nothing is cut.  Three
    messages are sent to one agent within one second: they come back in
    the order they were sent, the first one in front, and with limit 1
    the one sent first is kept and the newest is cut. *)
Lemma inbox_limit_and_order_counterexample :
  let spread := serve [ToolSend 1000000 "claude-1" "agent-x" "one" "b" None;
                       ToolSend 2000000 "claude-1" "agent-x" "two" "b" None;
                       ToolSend 3000000 "claude-1" "agent-x" "three" "b" None]
                      empty_db in
  let burst := serve [ToolSend 1000000 "claude-1" "agent-x" "one" "b" None;
                      ToolSend 1300000 "claude-1" "agent-x" "two" "b" None;
                      ToolSend 1600000 "claude-1" "agent-x" "three" "b" None]
                     empty_db in
  fetch_inbox_call "agent-x" true (-1) spread =
    Returns [Message 3 "claude-1" "agent-x" "three" "b" None 3 None None;
             Message 2 "claude-1" "agent-x" "two" "b" None 2 None None;
             Message 1 "claude-1" "agent-x" "one" "b" None 1 None None] ∧
  ¬ (Z.of_nat (length (fetch_inbox "agent-x" true (-1) spread)) ≤ -1) ∧
  fetch_inbox_call "agent-x" true 20 burst =
    Returns [Message 1 "claude-1" "agent-x" "one" "b" None 1 None None;
             Message 2 "claude-1" "agent-x" "two" "b" None 1 None None;
             Message 3 "claude-1" "agent-x" "three" "b" None 1 None None] ∧
  fetch_inbox_call "agent-x" true 1 burst =
    Returns [Message 1 "claude-1" "agent-x" "one" "b" None 1 None None].
Proof.
  split_and!.
  - vm_compute. reflexivity.
  - vm_compute. intros H. apply H. reflexivity.
  - vm_compute. reflexivity.
  - vm_compute. reflexivity.
Qed.

(** The inbox scenario of the specification: three messages, one of them
    read, sent in three different seconds. *)
Example inbox_two_unread :
  fetch_inbox_default "agent-x"
    (serve [ToolSend 1000000 "claude-1" "agent-x" "one" "b" None;
            ToolSend 2000000 "claude-1" "agent-x" "two" "b" None;
            ToolSend 3000000 "claude-1" "agent-x" "three" "b" None;
            ToolMarkRead 4000000 2 "agent-x"] empty_db)
  = [Message 3 "claude-1" "agent-x" "three" "b" None 3 None None;
     Message 1 "claude-1" "agent-x" "one" "b" None 1 None None].
Proof. vm_compute. reflexivity. Qed.


(** * Further properties of the lease manager *)

(** Splits a statement about every element of a list that is written out
    into one goal for each element. *)
Ltac each_element :=
  repeat first [ apply Forall_nil_2 | apply Forall_cons; split ].

Section leases.
Implicit Types (db : DB) (row : file_lock) (path agent reason : string)
  (c : tool_call) (calls : list tool_call).

(** A call that does not name [path] leaves the row of [path] alone. *)
Lemma handle_tool_call_other_path c db path :
  ¬ names_path path c →
  file_locks (handle_tool_call c db).1 !! path = file_locks db !! path.
Proof.
  intros Hc. destruct c; simpl in *; try done.
  - destruct (lock_file_result now1 now2 path0 agent reason ttl_seconds db)
      as [(h & _ & ->) | ->]; [done|]. simpl. by rewrite lookup_insert_ne.
  - change (file_locks (unlock_file path0 agent db).1 !! path
            = file_locks db !! path).
    rewrite unlock_file_locks.
    destruct (file_locks db !! path0) as [r|]; [case_decide|]; try done.
    by rewrite lookup_delete_ne.
Qed.

(** One call made before the expiry of a lease, by anybody but an acquire
    or release of the holder, leaves the lease alone. *)
Lemma handle_tool_call_keeps_lease c db path row :
  file_locks db !! path = Some row →
  Forall (λ t, t < lock_expires_at row) (clock_reads c) →
  ¬ acts_on_lease path (lock_agent row) c →
  file_locks (handle_tool_call c db).1 !! path = Some row.
Proof.
  intros Hrow Hclock Hc.
  destruct (decide (names_path path c)) as [Hp|Hp];
    [|by rewrite handle_tool_call_other_path].
  destruct c; simpl in Hp, Hc; try done; subst path0.
  - simpl in *. apply Forall_cons in Hclock as [_ [Hnow2 _]%Forall_cons].
    rewrite (lock_file_conflict now1 now2 path agent reason ttl_seconds db row);
      try done.
    intros Ha. by apply Hc.
  - change (file_locks (unlock_file path agent db).1 !! path = Some row).
    rewrite unlock_file_locks, Hrow, decide_False; [done|].
    intros Ha. by apply Hc.
Qed.
End leases.

(** The three outcomes of an acquire.  The call raises exactly when
    computing the expiry raises, and then with that exception, before the
    table is read.  It returns a conflict exactly when the expiry can be
    computed and the path has a row that is live at the checked reading
    and held by somebody else; the conflict names that holder and the
    database is returned as it was.  In every other case the acquire is
    granted, with the expiry that was computed. *)
Theorem lock_file_conflict_exactly `{Library} (now1 now2 : Time)
    (path agent reason : string) (ttl : Z) (db : DB) :
  (∀ err, lock_file_call now1 now2 path agent reason ttl db = Raises err ↔
          expiry_of now1 ttl = Raises err) ∧
  (∀ db' holder p,
     lock_file_call now1 now2 path agent reason ttl db
     = Returns (db', Conflict holder p) ↔
     db' = db ∧ p = path ∧ holder ≠ agent ∧
     (∃ e, expiry_of now1 ttl = Returns e) ∧
     ∃ row, file_locks db !! path = Some row ∧
            now2 < lock_expires_at row ∧ lock_agent row = holder) ∧
  (∀ e, expiry_of now1 ttl = Returns e →
     (∀ holder, lock_file_call now1 now2 path agent reason ttl db
                ≠ Returns (db, Conflict holder path)) →
     lock_file_call now1 now2 path agent reason ttl db
     = Returns (set_file_locks
                  (<[path := FileLock agent reason e]> (file_locks db)) db,
                Locked path e)).
Proof.
  split_and!.
  - intros err. apply lock_file_call_raises.
  - intros db' holder p. rewrite lock_file_call_returns. split.
    + intros (e & He & Hat). unfold lock_file_at in Hat.
      destruct (live_lock path now2 db) as [row|] eqn:Hlive;
        [case_decide as Hne|]; try done.
      apply live_lock_Some in Hlive as [Hrow Hnow].
      injection Hat as <- <- <-. split_and!; eauto.
    + intros (-> & -> & Hne & (e & He) & row & Hrow & Hnow & <-).
      exists e. split; [done|]. by apply lock_file_at_conflict.
  - intros e He Hno. apply lock_file_call_returns. exists e. split; [done|].
    destruct (lock_file_at_result e now2 path agent reason db)
      as [(h & _ & Hc) | Hg]; [|done].
    destruct (Hno h). apply lock_file_call_returns. eauto.
Qed.

(** Path isolation.  A run in which no acquire or release names [path]
    leaves the row of [path] as it is, whoever calls and whatever the
    clock shows. *)
Theorem serve_other_paths (calls : list tool_call) (db : DB) (path : string) :
  Forall (λ c, ¬ names_path path c) calls →
  file_locks (serve calls db) !! path = file_locks db !! path.
Proof.
  revert db. induction calls as [|c calls IH]; intros db Hcalls; [done|].
  apply Forall_cons in Hcalls as [Hc Hcalls].
  rewrite serve_cons, IH by done. by apply handle_tool_call_other_path.
Qed.

Lemma serve_other_paths_witness :
  let db := (lock_file 10 11 "a.py" "claude-1" "edit" 60 empty_db).1 in
  let calls := [ToolLock 20 21 "b.py" "opencode-1" "fix" 60;
                ToolUnlock "c.py" "claude-1";
                ToolSend 30 "claude-1" "opencode-1" "[DONE]" "ok" None] in
  file_locks (serve calls db) !! "a.py" = file_locks db !! "a.py".
Proof.
  intros db calls. apply (serve_other_paths calls db "a.py").
  each_element; simpl; try tauto; intros H; discriminate H.
Defined.

(** A lease is protected until it expires.  Let [path] carry a row and
    take any run whose clock readings are all before the expiry of that
    row and in which the holder itself neither acquires nor releases
    [path].  After the run the row is unchanged: acquires by others end in
    a conflict, releases by others delete nothing. *)
Theorem lease_protected_until_expiry (calls : list tool_call) (db : DB)
    (path : string) (row : file_lock) :
  file_locks db !! path = Some row →
  Forall (λ t, t < lock_expires_at row) (calls ≫= clock_reads) →
  Forall (λ c, ¬ acts_on_lease path (lock_agent row) c) calls →
  file_locks (serve calls db) !! path = Some row.
Proof.
  revert db. induction calls as [|c calls IH]; intros db Hrow Hclock Hcalls;
    [done|].
  apply Forall_cons in Hcalls as [Hc Hcalls].
  simpl in Hclock. apply Forall_app in Hclock as [Hclock1 Hclock2].
  rewrite serve_cons. apply IH; try done.
  by apply handle_tool_call_keeps_lease.
Qed.

Lemma lease_protected_until_expiry_witness :
  let db := (lock_file 10 11 "a.py" "claude-1" "edit" 60 empty_db).1 in
  let calls := [ToolLock 20 21 "a.py" "opencode-1" "fix" 60;
                ToolUnlock "a.py" "opencode-1";
                ToolLocks 30 None] in
  file_locks (serve calls db) !! "a.py"
  = Some (FileLock "claude-1" "edit" 60000010).
Proof.
  intros db calls.
  apply (lease_protected_until_expiry calls db "a.py"
           (FileLock "claude-1" "edit" 60000010)).
  - vm_compute. reflexivity.
  - simpl. each_element; lia.
  - each_element; simpl; try tauto; intros [_ H]; discriminate H.
Defined.



(** What the listing shows.  Without a filter it shows exactly the stored
    rows whose expiry is after the reading, each path once.  A filter that
    is the empty string is no filter at all; any other filter keeps
    exactly the rows of that holder. *)
Theorem list_locks_selection (now : Time) (db : DB) :
  list_locks (Some EmptyString) now db = list_locks None now db ∧
  (∀ path row,
     (path, row) ∈ list_locks None now db ↔
     file_locks db !! path = Some row ∧ now < lock_expires_at row) ∧
  (∀ a path row, a ≠ EmptyString →
     ((path, row) ∈ list_locks (Some a) now db ↔
      (path, row) ∈ list_locks None now db ∧ lock_agent row = a)) ∧
  (∀ filter_by, NoDup (list_locks filter_by now db).*1).
Proof.
  split_and!.
  - done.
  - intros path row. rewrite elem_of_list_locks. tauto.
  - intros a path row Ha. rewrite !elem_of_list_locks. split.
    + intros (? & ? & [?|?]); done.
    + intros [(? & ? & _) ?]. auto.
  - intros filter_by. apply list_locks_NoDup.
Qed.

(** Passive expiry.  A granted lease is listed at exactly the readings
    before its expiry; at the expiry itself and afterwards it is not
    listed, although its row is still stored. *)
Theorem lease_listed_until_expiry (now1 now2 : Time)
    (path agent reason : string) (ttl : Z) (db db' : DB) (p : string) (e : Time) :
  lock_file now1 now2 path agent reason ttl db = (db', Locked p e) →
  ∀ now,
    ((path, FileLock agent reason e) ∈ list_locks None now db' ↔ now < e) ∧
    ((path, FileLock agent reason e) ∈ list_locks (Some agent) now db' ↔ now < e) ∧
    file_locks db' !! path = Some (FileLock agent reason e).
Proof.
  intros (_ & -> & Hrow & _)%lock_file_granted_inv now.
  rewrite !elem_of_list_locks. simpl. split_and!; [| |done].
  - split; [by intros (_ & ? & _)|done].
  - split; [by intros (_ & ? & _)|]. intros ?. split_and!; auto.
Qed.

Lemma lease_listed_until_expiry_witness :
  let db' := (lock_file 10 11 "a.py" "claude-1" "edit" 60 empty_db).1 in
  (("a.py", FileLock "claude-1" "edit" 60000010) ∈ list_locks None 60000010 db'
   ↔ 60000010 < 60000010) ∧
  (("a.py", FileLock "claude-1" "edit" 60000010)
   ∈ list_locks (Some "claude-1"%string) 60000010 db' ↔ 60000010 < 60000010) ∧
  file_locks db' !! "a.py" = Some (FileLock "claude-1" "edit" 60000010).
Proof.
  intros db'.
  refine (lease_listed_until_expiry 10 11 "a.py" "claude-1" "edit" 60 empty_db
            db' "a.py" 60000010 _ 60000010).
  vm_compute. reflexivity.
Defined.


(** * Further properties of the message channel *)

Section channel.
Implicit Types (db : DB) (m : message) (rows : list message)
  (c : tool_call) (calls : list tool_call).

(** What is in an inbox. *)
Lemma elem_of_fetch_inbox (agent : string) (unread_only : bool) (limit : Z)
    db m :
  m ∈ fetch_inbox agent unread_only limit db →
  m ∈ messages db ∧ in_inbox agent unread_only m.
Proof.
  rewrite fetch_inbox_selection. intros Hin.
  destruct (sql_limit_prefix limit
              (order_by_created_at
                 (filter (in_inbox agent unread_only) (messages db))))
    as [rest Hrest].
  assert (m ∈ order_by_created_at
                (filter (in_inbox agent unread_only) (messages db))) as Hm.
  { rewrite Hrest. apply elem_of_app. by left. }
  rewrite order_by_created_at_Permutation in Hm.
  apply list_elem_of_filter in Hm. tauto.
Qed.


(** An update addressed to one agent does not change what is selected
    for another. *)
Lemma sql_update_other_recipient (message_id : Z) (agent other : string)
    (f : message → message) rows :
  other ≠ agent →
  (∀ m, msg_recipient (f m) = msg_recipient m) →
  filter (λ m, msg_recipient m = other) (sql_update (addressed message_id agent) f rows)
  = filter (λ m, msg_recipient m = other) rows.
Proof.
  intros Hother Hf. induction rows as [|m rows IH]; [done|].
  unfold sql_update in *. rewrite fmap_cons.
  case_decide as Haddr.
  - destruct Haddr as [_ Hrcp].
    rewrite !filter_cons_False, IH; [done| |]; rewrite ?Hf; congruence.
  - rewrite !filter_cons, IH. done.
Qed.

Lemma handle_tool_call_length c db :
  length (messages (handle_tool_call c db).1)
  = (length (messages db) + (if is_send c then 1 else 0))%nat.
Proof.
  rewrite <- !(length_fmap msg_id), handle_tool_call_ids, length_app.
  destruct c; simpl; lia.
Qed.

Lemma new_rowid_handle_eq c db :
  new_rowid (handle_tool_call c db).1
  = new_rowid db + (if is_send c then 1 else 0).
Proof.
  destruct c;
    try (unfold new_rowid at 1;
         rewrite handle_tool_call_seq,
           (max_rowid_ids _ (messages db))
           by (rewrite handle_tool_call_ids; apply app_nil_r);
         fold (new_rowid db); simpl; lia).
  simpl handle_tool_call. rewrite new_rowid_send. simpl. lia.
Qed.

Lemma count_sends_cons c calls :
  count_sends (c :: calls)
  = ((if is_send c then 1 else 0) + count_sends calls)%nat.
Proof.
  unfold count_sends. rewrite filter_cons.
  destruct (is_send c); by case_decide.
Qed.
End channel.



(** Reading and the inbox.  After [mark_read] or [ack_message] by an
    agent, no row with the named identifier is left in that agent's inbox
    of unread messages, whatever the limit; the inbox of every other agent
    is the same list as before. *)
Theorem read_leaves_unread_inbox (now now1 now2 : Time) (message_id : Z)
    (agent : string) (limit : Z) (db : DB) :
  (∀ m, m ∈ fetch_inbox agent true limit (mark_read now message_id agent db).1 →
        msg_id m ≠ message_id) ∧
  (∀ m, m ∈ fetch_inbox agent true limit
              (ack_message now1 now2 message_id agent db).1 →
        msg_id m ≠ message_id) ∧
  (∀ other unread_only, other ≠ agent →
     fetch_inbox other unread_only limit (mark_read now message_id agent db).1
     = fetch_inbox other unread_only limit db ∧
     fetch_inbox other unread_only limit
       (ack_message now1 now2 message_id agent db).1
     = fetch_inbox other unread_only limit db).
Proof.
  assert (∀ f, (∀ m, msg_read_at (f m) ≠ None) →
            ∀ m, m ∈ sql_update (addressed message_id agent) f (messages db) →
                 in_inbox agent true m → msg_id m ≠ message_id) as Hgone.
  { intros f Hf m Hin [Hrcp Hunread] Hid. specialize (Hunread eq_refl).
    unfold sql_update in Hin.
    apply list_elem_of_fmap in Hin as (m0 & Hm & _).
    case_decide as Haddr; subst m.
    - by apply (Hf m0).
    - by apply Haddr. }
  split_and!.
  - intros m [Hin Hsel]%elem_of_fetch_inbox.
    by apply (Hgone (set_read now)).
  - intros m [Hin Hsel]%elem_of_fetch_inbox.
    by apply (Hgone (set_ack now1 now2)).
  - intros other unread_only Hother. unfold fetch_inbox. simpl.
    by rewrite !sql_update_other_recipient.
Qed.


(** The table of messages only grows.  After any run it holds as many
    rows as before plus one for each send; every row that was there is
    still at its place with the same identifier, sender, recipient,
    subject, body, thread and creation time. *)
Theorem messages_append_only (calls : list tool_call) (db : DB) :
  length (messages (serve calls db))
  = (length (messages db) + count_sends calls)%nat ∧
  (∀ (i : nat) m, messages db !! i = Some m →
     ∃ m', messages (serve calls db) !! i = Some m' ∧
           msg_id m' = msg_id m ∧ msg_sender m' = msg_sender m ∧
           msg_recipient m' = msg_recipient m ∧
           msg_subject m' = msg_subject m ∧ msg_body m' = msg_body m ∧
           msg_thread_id m' = msg_thread_id m ∧
           msg_created_at m' = msg_created_at m).
Proof.
  revert db. induction calls as [|c calls IH]; intros db.
  - split; [unfold count_sends; simpl; lia|]. intros i m Hi. by exists m.
  - rewrite serve_cons. destruct (IH (handle_tool_call c db).1) as [Hlen Hrows].
    split.
    + rewrite Hlen, handle_tool_call_length, count_sends_cons. lia.
    + intros i m Hi.
      destruct (Hrows i _ (handle_tool_call_lookup c db i m Hi))
        as (m' & Hi' & Hstatic).
      pose proof (row_step_static c m) as Hstep. simpl in Hstep.
      exists m'. split; [done|].
      destruct Hstatic as (-> & -> & -> & -> & -> & -> & ->). done.
Qed.

(** Identifiers count from one.  In a database built from the empty one
    by any run, the identifiers in the table are 1, 2, ..., n in this
    order, where n is the number of sends in the run, and the next send
    returns n + 1. *)
Theorem identifiers_count_from_one (calls : list tool_call) :
  msg_id <$> messages (serve calls empty_db)
  = seqZ 1 (Z.of_nat (count_sends calls)) ∧
  (∀ now sender recipient subject body thread_id,
     (send_message now sender recipient subject body thread_id
        (serve calls empty_db)).2
     = Sent (Z.of_nat (count_sends calls) + 1)).
Proof.
  assert (∀ db n,
            msg_id <$> messages db = seqZ 1 (Z.of_nat n) →
            new_rowid db = Z.of_nat n + 1 →
            msg_id <$> messages (serve calls db)
            = seqZ 1 (Z.of_nat (n + count_sends calls)) ∧
            new_rowid (serve calls db) = Z.of_nat (n + count_sends calls) + 1)
    as Hrun.
  { induction calls as [|c calls IH]; intros db n Hids Hnew.
    - unfold count_sends. simpl. by rewrite Nat.add_0_r.
    - rewrite serve_cons, count_sends_cons.
      destruct (is_send c) eqn:Hsend.
      + replace (n + (1 + count_sends calls))%nat
          with (S n + count_sends calls)%nat by lia.
        apply IH.
        * rewrite handle_tool_call_ids. destruct c; try done.
          rewrite seqZ_S, Hids, Hnew. do 2 f_equal. lia.
        * rewrite new_rowid_handle_eq, Hsend. lia.
      + apply IH.
        * rewrite handle_tool_call_ids. destruct c; try done;
            by rewrite app_nil_r.
        * rewrite new_rowid_handle_eq, Hsend. lia. }
  destruct (Hrun empty_db 0%nat) as [Hids Hnew]; [done..|].
  split; [done|]. intros. simpl. by rewrite Hnew.
Qed.

(** A message that is read and then acknowledged, and updates that are
    repeated.  An acknowledgement keeps the [read_at] that an earlier
    [mark_read] wrote and stamps [ack_at] with its first reading.  Neither
    update is idempotent on its own column: a second [mark_read] replaces
    [read_at] by its reading, a second acknowledgement replaces [ack_at]
    by its first reading and keeps [read_at]. *)
Theorem read_then_ack (r r' a1 a2 b1 b2 : Time) (db : DB) (i : nat)
    (m : message) :
  messages db !! i = Some m →
  let id := msg_id m in
  let agent := msg_recipient m in
  let stamped read ack :=
    Message (msg_id m) (msg_sender m) (msg_recipient m) (msg_subject m)
            (msg_body m) (msg_thread_id m) (msg_created_at m) read ack in
  messages (ack_message a1 a2 id agent (mark_read r id agent db).1).1 !! i
  = Some (stamped (Some r) (Some a1)) ∧
  messages (mark_read r' id agent (mark_read r id agent db).1).1 !! i
  = Some (stamped (Some r') (msg_ack_at m)) ∧
  messages (ack_message b1 b2 id agent (ack_message a1 a2 id agent db).1).1 !! i
  = Some (stamped (Some (default a2 (msg_read_at m))) (Some b1)).
Proof.
  intros Hi id agent stamped.
  assert (∀ m', msg_id m' = msg_id m → msg_recipient m' = msg_recipient m →
                addressed id agent m') as Haddr by done.
  split_and!; simpl.
  - rewrite (sql_update_lookup _ _ _ i (set_read r m)).
    + by rewrite decide_True by by apply Haddr.
    + rewrite (sql_update_lookup _ _ _ _ _ Hi).
      by rewrite decide_True by by apply Haddr.
  - rewrite (sql_update_lookup _ _ _ i (set_read r m)).
    + by rewrite decide_True by by apply Haddr.
    + rewrite (sql_update_lookup _ _ _ _ _ Hi).
      by rewrite decide_True by by apply Haddr.
  - rewrite (sql_update_lookup _ _ _ i (set_ack a1 a2 m)).
    + by rewrite decide_True by by apply Haddr.
    + rewrite (sql_update_lookup _ _ _ _ _ Hi).
      by rewrite decide_True by by apply Haddr.
Qed.

Lemma read_then_ack_witness :
  let db := (send_message 5000000 "claude-1" "opencode-1" "[TASK]" "go" None
               empty_db).1 in
  let stamped read ack :=
    Message 1 "claude-1" "opencode-1" "[TASK]" "go" None 5 read ack in
  messages (ack_message 8 9 1 "opencode-1" (mark_read 6 1 "opencode-1" db).1).1
    !! 0%nat = Some (stamped (Some 6) (Some 8)) ∧
  messages (mark_read 7 1 "opencode-1" (mark_read 6 1 "opencode-1" db).1).1
    !! 0%nat = Some (stamped (Some 7) None) ∧
  messages (ack_message 10 11 1 "opencode-1"
              (ack_message 8 9 1 "opencode-1" db).1).1 !! 0%nat
  = Some (stamped (Some 9) (Some 10)).
Proof.
  intros db.
  apply (read_then_ack 6 7 8 9 10 11 db 0
           (Message 1 "claude-1" "opencode-1" "[TASK]" "go" None 5 None None)).
  vm_compute. reflexivity.
Defined.


(** * The agent registry *)

(** Registration is an upsert keyed by the name.  After it the listing
    holds the agent with the values and the time of this call, and every
    other agent as before; no name is listed twice; the listing is ordered
    by [last_seen], latest first; what an earlier registration of the same
    name had written is gone; messages and leases are untouched. *)
Theorem register_then_list (now : Time) (name program model task : string)
    (db : DB) :
  let db' := (register_agent now name program model task db).1 in
  (∀ n row,
     (n, row) ∈ list_agents db' ↔
     (n = name ∧ row = AgentRow program model task now) ∨
     (n ≠ name ∧ (n, row) ∈ list_agents db)) ∧
  NoDup (list_agents db').*1 ∧
  StronglySorted last_seen_first (list_agents db') ∧
  (∀ now0 program0 model0 task0,
     (register_agent now name program model task
        (register_agent now0 name program0 model0 task0 db).1).1 = db') ∧
  messages db' = messages db ∧ file_locks db' = file_locks db.
Proof.
  intros db'. split_and!; try done.
  - intros n row. unfold list_agents.
    rewrite !merge_sort_Permutation, !elem_of_map_to_list. subst db'. simpl.
    rewrite lookup_insert_Some. split; intros [[? ?]|[? ?]]; auto.
  - unfold list_agents. rewrite merge_sort_Permutation.
    apply NoDup_fst_map_to_list.
  - apply StronglySorted_merge_sort; apply _.
  - intros now0 program0 model0 task0. subst db'.
    unfold register_agent, set_agents. simpl. by rewrite insert_insert_eq.
Qed.


(** * The memory store *)

Section memory_properties.
Context `{Library}.
Implicit Types (mem : gmap string memory_row) (content : string)
  (tags : option (list string)).

(** The first content stays.  When a content is remembered and then a
    content with the same identifier is remembered, be it the same text or
    another text whose digest starts with the same twelve characters, the
    second call reports that identifier as stored, but the row keeps the
    first content and its creation time; only the tags are replaced.  No
    other row changes. *)
Theorem remember_keeps_first_content (now1 now2 : Time) (c1 c2 : string)
    tags1 tags2 mem :
  mem !! mem_id_of c1 = None →
  mem_id_of c2 = mem_id_of c1 →
  let second := remember now2 c2 tags2 (remember now1 c1 tags1 mem).1 in
  second.2 = Stored (mem_id_of c1) ∧
  second.1 !! mem_id_of c1
  = Some (MemoryRow c1 (json_dumps (default [] tags2)) (now1 `div` 1000000)) ∧
  (∀ k, k ≠ mem_id_of c1 → second.1 !! k = mem !! k).
Proof.
  intros Hfresh Hid second. subst second. unfold remember.
  rewrite Hid, Hfresh. cbn [fst snd]. rewrite lookup_insert_eq. simpl.
  split_and!; [done|by rewrite lookup_insert_eq|].
  intros k Hk. by rewrite !lookup_insert_ne.
Qed.

(** Forgetting.  Forgetting the identifier that a [remember] of a new
    content returned gives back the table as it was before; forgetting an
    identifier that is not in the table changes nothing; both report
    success. *)
Theorem remember_then_forget (now : Time) content tags mem :
  mem !! mem_id_of content = None →
  forget (mem_id_of content) (remember now content tags mem).1
  = (mem, Forgotten (mem_id_of content)) ∧
  forget (mem_id_of content) mem = (mem, Forgotten (mem_id_of content)).
Proof.
  intros Hfresh. unfold forget, remember. rewrite Hfresh. cbn [fst].
  by rewrite delete_insert_id, delete_id.
Qed.

End memory_properties.

Lemma remember_keeps_first_content_witness :
  let second :=
    @remember example_library 9000000 "deploy on friday" (Some ["ops"%string])
      (@remember example_library 5000000 "deploy on friday" None ∅).1 in
  second.2 = Stored "deploy on fr" ∧
  second.1 !! "deploy on fr"%string
  = Some (MemoryRow "deploy on friday" "ops" 5) ∧
  (∀ k, k ≠ "deploy on fr"%string →
        second.1 !! k = (∅ : gmap string memory_row) !! k).
Proof.
  apply (@remember_keeps_first_content example_library 5000000 9000000
           "deploy on friday" "deploy on friday" None (Some ["ops"%string]) ∅).
  - reflexivity.
  - reflexivity.
Defined.

Lemma remember_then_forget_witness :
  @forget "note" (@remember example_library 5000000 "note" None ∅).1
  = (∅, Forgotten "note") ∧
  @forget "note" (∅ : gmap string memory_row) = (∅, Forgotten "note").
Proof.
  apply (@remember_then_forget example_library 5000000 "note" None ∅).
  reflexivity.
Defined.


(** * The server *)

Section server_properties.
Context `{Library}.
Implicit Types (st : Store) (args : arguments) (msg : message_in).

(** Takes the chain of comparisons of a tool name apart. *)
Ltac tool_chain :=
  repeat (let Hname := fresh "Hname" in
          case_decide as Hname; [try discriminate Hname; try congruence|]);
  try discriminate; try congruence.

Lemma sqlite_int_in (n : Z) : int64 n → sqlite_int n = Returns n.
Proof. intros Hn. unfold sqlite_int. by rewrite decide_True. Qed.

Lemma sqlite_int_out (n : Z) :
  ¬ int64 n →
  sqlite_int n
  = Raises (OverflowError "Python int too large to convert to SQLite INTEGER").
Proof. intros Hn. unfold sqlite_int. by rewrite decide_False. Qed.

(** Takes the binding of an integer and the computing of an expiry
    apart. *)
Ltac call_cases :=
  unfold fetch_inbox_call, mark_read_call, ack_message_call, recall_call,
    lock_file_call;
  repeat match goal with
         | |- context [sqlite_int ?n] =>
             let Hn := fresh "Hn" in
             destruct (decide (int64 n)) as [Hn|Hn];
             [rewrite (sqlite_int_in n Hn) | rewrite (sqlite_int_out n Hn)];
             cbn [mbind raises_bind]
         | |- context [expiry_of ?now ?ttl] =>
             let He := fresh "He" in
             destruct (expiry_of now ttl) eqn:He; cbn [mbind raises_bind]
         end.

(** The catalog and the dispatch agree.  A name that is not in [TOOLS]
    raises [ValueError] with the text [Unknown tool:] and the name.  For a
    tool of the catalog, a required key that is missing raises [KeyError]
    for the first such key.  When every required key is present the call
    returns, provided its integers are of 64 bits and, for [lock], the
    expiry can be computed; and whatever it raises is the [OverflowError]
    of an integer that cannot be bound, or what computing the expiry of a
    [lock] raised. *)
Theorem tools_catalog_agrees (now1 now2 : Time) (name : option string)
    args st :
  (name ∉ (Some ∘ tool_name <$> TOOLS) →
   handle_tool_call_named now1 now2 name args st
   = Raises (ValueError ("Unknown tool: " +:+ format_name name))) ∧
  (∀ spec, spec ∈ TOOLS → name = Some (tool_name spec) →
     match list_find (λ key, has_key key args = false) (tool_required spec) with
     | Some (_, key) =>
         handle_tool_call_named now1 now2 name args st = Raises (KeyError key)
     | None =>
         (from_option int64 True (arg_limit args) →
          from_option int64 True (arg_message_id args) →
          (name = Some "lock"%string →
           ∃ e, expiry_of now1 (default 1800 (arg_ttl_seconds args))
                = Returns e) →
          ∃ st' r, handle_tool_call_named now1 now2 name args st
                   = Returns (st', r)) ∧
         (∀ err, handle_tool_call_named now1 now2 name args st = Raises err →
            err = OverflowError
                    "Python int too large to convert to SQLite INTEGER" ∨
            (name = Some "lock"%string ∧
             expiry_of now1 (default 1800 (arg_ttl_seconds args))
             = Raises err))
     end).
Proof.
  split.
  - intros Hname. simpl in Hname. rewrite !not_elem_of_cons in Hname.
    destruct Hname as (?&?&?&?&?&?&?&?&?&?&?&?&_).
    unfold handle_tool_call_named. by rewrite !decide_False by done.
  - intros spec Hspec ->. unfold TOOLS in Hspec.
    repeat (apply elem_of_cons in Hspec as [->|Hspec]);
      [..|by apply elem_of_nil in Hspec];
      unfold handle_tool_call_named; cbn [tool_name tool_required];
      tool_chain; destruct args;
      cbn [arg_name arg_sender arg_recipient arg_subject arg_agent
           arg_message_id arg_path arg_content arg_query arg_id
           arg_limit arg_ttl_seconds];
      repeat match goal with
             | |- context [item _ ?o] =>
                 destruct o; cbn [item mbind raises_bind]
             end;
      match goal with
      | |- context [@list_find ?A ?P ?D ?l] =>
          let found := eval vm_compute in (@list_find A P D l) in
          change (@list_find A P D l) with found
      end;
      cbn beta iota; try done;
      (split;
       [intros Hlimit Hid Hexpiry; call_cases; eauto;
        try (destruct Hexpiry as [? ?]; [done|congruence]);
        exfalso;
        repeat match goal with
               | o : option Z |- _ => destruct o
               end; simpl in *; try done;
        match goal with Hn : ¬ int64 _ |- _ => apply Hn; unfold int64; lia end
       |intros err; call_cases; intros [= <-]; auto]).
Qed.

(** A tool that is not one of the writing tools returns the store it was
    given. *)
Lemma handle_tool_call_named_reads (now1 now2 : Time) (name : option string)
    args st st' r :
  name ∉ (Some <$> writing_tools) →
  handle_tool_call_named now1 now2 name args st = Returns (st', r) →
  st' = st.
Proof.
  intros Hread. unfold handle_tool_call_named.
  repeat (let Hname := fresh "Hname" in
          case_decide as Hname;
          [try (exfalso; apply Hread; rewrite Hname; compute_done)|]);
    try discriminate;
    repeat match goal with
           | |- context [item _ ?o] => destruct o; cbn [item mbind raises_bind]
           end;
    try discriminate;
    call_cases; try discriminate;
    unfold on_db; simpl; intros [= <- _]; by destruct st.
Qed.

Lemma handle_message_out (now1 now2 : Time) msg st :
  (is_notification msg → (handle_message now1 now2 msg st).2 = None) ∧
  (¬ is_notification msg →
   ∃ o, (handle_message now1 now2 msg st).2 = Some o ∧
        response_id o = msg_rpc_id msg).
Proof.
  unfold is_notification, handle_message. split.
  - intros ->. by rewrite decide_False, decide_True by done.
  - intros Hn. repeat case_decide; try done; eauto.
    destruct (handle_tool_call_named _ _ _ _ _) as [[st' r]|e]; eauto.
Qed.

(** One line in, at most one line out.  A line gets no answer exactly
    when it is the [notifications/initialized] notification; every other
    line gets one answer, which carries the [id] of the line.  An error
    answer leaves the store as it was: code -32601 with the text [Unknown
    method:] for a method that is none of the four, code -32000 with the
    text of the exception for a tool call that raised.  The store changes
    only on a [tools/call] of one of the writing tools that is answered
    with a result. *)
Theorem handle_message_replies (now1 now2 : Time) msg st :
  let turn := handle_message now1 now2 msg st in
  (turn.2 = None ↔ is_notification msg) ∧
  (∀ o, turn.2 = Some o → response_id o = msg_rpc_id msg) ∧
  (∀ id code text, turn.2 = Some (error_response id code text) →
     turn.1 = st ∧
     ((code = -32601 ∧
       text = "Unknown method: " +:+ format_name (msg_method msg) ∧
       msg_method msg ∉ [Some "initialize"; Some "notifications/initialized";
                         Some "tools/list"; Some "tools/call"]%string) ∨
      (code = -32000 ∧ msg_method msg = Some "tools/call"%string ∧
       ∃ e, handle_tool_call_named now1 now2 (msg_tool_name msg)
              (msg_arguments msg) st = Raises e ∧ text = str e))) ∧
  (turn.1 ≠ st →
   msg_method msg = Some "tools/call"%string ∧
   msg_tool_name msg ∈ (Some <$> writing_tools) ∧
   ∃ r, turn.2 = Some (success_response (msg_rpc_id msg) (ToolCallResult r))).
Proof.
  intros turn. destruct (handle_message_out now1 now2 msg st) as [Hnone Hsome].
  fold turn in Hnone, Hsome. split_and!.
  - split; [|done]. intros Hout.
    destruct (decide (is_notification msg)) as [|Hn]; [done|].
    destruct (Hsome Hn) as (o & Ho & _). congruence.
  - intros o Ho. destruct (decide (is_notification msg)) as [Hn|Hn].
    + rewrite (Hnone Hn) in Ho. done.
    + destruct (Hsome Hn) as (o' & Ho' & Hid). congruence.
  - intros id code text. subst turn. unfold handle_message.
    repeat case_decide; try done.
    + destruct (handle_tool_call_named _ _ _ _ _) as [[st' r]|e] eqn:Hcall;
        [done|].
      simpl. intros [= <- <- <-]. split; [done|]. right. eauto.
    + simpl. intros [= <- <- <-]. split; [done|]. left.
      split_and!; [done..|]. rewrite !not_elem_of_cons.
      split_and!; try done. apply not_elem_of_nil.
  - subst turn. unfold handle_message. repeat case_decide; try done.
    destruct (handle_tool_call_named _ _ _ _ _) as [[st' r]|e] eqn:Hcall;
      [|done].
    simpl. intros Hchanged. split_and!; [done| |eauto].
    destruct (decide (msg_tool_name msg ∈ (Some <$> writing_tools)))
      as [|Hread]; [done|].
    destruct Hchanged. by eapply handle_tool_call_named_reads.
Qed.

(** The loop answers in order.  The lines written by [main] are in the
    order of the lines read and carry their [id]s, one for every line that
    is not the [notifications/initialized] notification. *)
Theorem main_replies (lines : list (Time * Time * message_in)) st :
  response_id <$> (main lines st).2
  = msg_rpc_id <$> filter (λ msg, ¬ is_notification msg) lines.*2.
Proof.
  revert st. induction lines as [|[[now1 now2] msg] lines IH]; intros st;
    [done|].
  cbn [main]. destruct (handle_message_out now1 now2 msg st) as [Hnone Hsome].
  destruct (handle_message now1 now2 msg st) as [st1 out].
  specialize (IH st1). destruct (main lines st1) as [st2 outs].
  cbn [fst snd] in *. rewrite (fmap_cons snd). cbn [snd].
  destruct (decide (is_notification msg)) as [Hn|Hn].
  - rewrite (Hnone Hn). by rewrite filter_cons_False by tauto.
  - destruct (Hsome Hn) as (o & -> & Hid).
    rewrite filter_cons_True by done. rewrite !fmap_cons. by rewrite Hid, IH.
Qed.

(** An acquire through the server.  A [tools/call] of [lock] that has its
    path and agent computes the expiry with the empty reason and 1800
    seconds unless the request says otherwise.  When that raises, the
    answer is an error with code -32000 and the text of the exception, and
    the store is as it was.  Otherwise the answer is a result, the one of
    the statements of [lock_file] with that expiry: in particular, when
    the path is held live by another agent the answer is a result, not an
    error; it carries the conflict with the holder's name, and the store
    is as it was. *)
Theorem lock_through_server (now1 now2 : Time) (id : rpc_id) args st
    (path agent : string) :
  arg_path args = Some path →
  arg_agent args = Some agent →
  let msg := MessageIn (Some "tools/call"%string) id (Some "lock"%string) args in
  let reason := default EmptyString (arg_reason args) in
  let ttl := default 1800 (arg_ttl_seconds args) in
  (∀ err, expiry_of now1 ttl = Raises err →
     handle_message now1 now2 msg st
     = (st, Some (error_response id (-32000) (str err)))) ∧
  (∀ e, expiry_of now1 ttl = Returns e →
     let locked := lock_file_at e now2 path agent reason (store_db st) in
     handle_message now1 now2 msg st
     = (MkStore locked.1 (store_memory st),
        Some (success_response id (ToolCallResult (CoreResult locked.2))))) ∧
  (∀ e row, expiry_of now1 ttl = Returns e →
     file_locks (store_db st) !! path = Some row →
     now2 < lock_expires_at row → lock_agent row ≠ agent →
     handle_message now1 now2 msg st
     = (st, Some (success_response id
                    (ToolCallResult (CoreResult (Conflict (lock_agent row) path)))))).
Proof.
  intros Hpath Hagent msg reason ttl.
  assert (handle_message now1 now2 msg st
          = match lock_file_call now1 now2 path agent reason ttl (store_db st) with
            | Returns r =>
                (MkStore r.1 (store_memory st),
                 Some (success_response id (ToolCallResult (CoreResult r.2))))
            | Raises err => (st, Some (error_response id (-32000) (str err)))
            end) as Hturn.
  { unfold handle_message, msg. cbn [msg_method msg_rpc_id msg_tool_name
                                      msg_arguments].
    tool_chain. unfold handle_tool_call_named. tool_chain.
    rewrite Hpath, Hagent. cbn [item mbind raises_bind]. fold reason ttl.
    by destruct (lock_file_call _ _ _ _ _ _ _). }
  rewrite Hturn. unfold lock_file_call. split_and!.
  - by intros err ->.
  - by intros e ->.
  - intros e row -> Hrow Hlive Hother. cbn [mbind raises_bind].
    rewrite (lock_file_at_conflict e now2 path agent reason _ row) by done.
    by destruct st.
Qed.
End server_properties.

Lemma lock_through_server_witness :
  let args := MkArguments None None None None None None None None None
                (Some "opencode-1"%string) None None None
                (Some "a.py"%string) None None None None None None in
  let st := MkStore (lock_file 1700000000000000 1700000000000001 "a.py"
                       "claude-1" "edit" 1800 empty_db).1 ∅ in
  let msg := MessageIn (Some "tools/call"%string) (NumberId 7)
                       (Some "lock"%string) args in
  (∀ err, @expiry_of example_library 1700000020000000 1800 = Raises err →
     @handle_message example_library 1700000020000000 1700000020000001 msg st
     = (st, Some (error_response (NumberId 7) (-32000) (str err)))) ∧
  (∀ e, @expiry_of example_library 1700000020000000 1800 = Returns e →
     let locked := lock_file_at e 1700000020000001 "a.py" "opencode-1"
                                EmptyString (store_db st) in
     @handle_message example_library 1700000020000000 1700000020000001 msg st
     = (MkStore locked.1 (store_memory st),
        Some (success_response (NumberId 7)
                (ToolCallResult (CoreResult locked.2))))) ∧
  (∀ e row, @expiry_of example_library 1700000020000000 1800 = Returns e →
     file_locks (store_db st) !! "a.py" = Some row →
     1700000020000001 < lock_expires_at row →
     lock_agent row ≠ "opencode-1"%string →
     @handle_message example_library 1700000020000000 1700000020000001 msg st
     = (st, Some (success_response (NumberId 7)
                    (ToolCallResult
                       (CoreResult (Conflict (lock_agent row) "a.py")))))).
Proof.
  intros args st.
  apply (@lock_through_server example_library 1700000020000000
           1700000020000001 (NumberId 7) args st "a.py" "opencode-1");
    reflexivity.
Defined.


(** * The command line *)

Section command_line_properties.
Context `{Library}.
Implicit Types (st : Store) (argv : list string).

(** Takes the chain of comparisons of the command and the unpacking of
    its arguments apart. *)
Ltac cli_cases argv :=
  unfold cli;
  destruct (argv !! 1%nat) as [cmd|] eqn:Hcmd;
  [repeat (let Hc := fresh "Hc" in case_decide as Hc);
   try destruct (take 3 (drop 2 argv)) as [|? [|? [|? [|? ?]]]];
   try destruct (take 2 (drop 2 argv)) as [|? [|? [|? ?]]];
   try (unfold argv_item; destruct (argv !! 2%nat));
   try match goal with
       | |- context [lock_file_call ?a ?b ?c ?d ?e ?f ?g] =>
           let Hcall := fresh "Hcall" in
           destruct (lock_file_call a b c d e f g) as [[? ?]|?] eqn:Hcall
       end;
   cbn [print_or_die mbind raises_bind on_db on_memory with_db fst snd]|].

(** A call of [lock_file] writes to the table of leases only. *)
Lemma lock_file_call_frame (now1 now2 : Time) (path agent reason : string)
    (ttl : Z) (db db' : DB) (r : response) :
  lock_file_call now1 now2 path agent reason ttl db = Returns (db', r) →
  messages db' = messages db ∧ agents db' = agents db.
Proof.
  intros (e & _ & Hat)%lock_file_call_returns.
  destruct (lock_file_at_result e now2 path agent reason db)
    as [(h & _ & Hc) | Hg]; rewrite Hat in *.
  - by injection Hc as -> _.
  - by injection Hg as -> _.
Qed.

(** The usage line and the dispatch agree.  The usage is printed exactly
    when no command is given.  A command is reported as unknown exactly
    when it is not one of those the usage line names.  Whenever the run
    does not end by printing a result (usage, unknown command, or an
    exception for missing arguments), the store is as it was. *)
Theorem cli_commands_agree (now1 now2 : Time) argv st :
  let run := cli now1 now2 argv st in
  (run.2 = Usage ↔ (length argv < 2)%nat) ∧
  (∀ cmd, run.2 = UnknownCommand cmd ↔
          argv !! 1%nat = Some cmd ∧ cmd ∉ cli_commands) ∧
  ((∀ r, run.2 ≠ Printed r) → run.1 = st).
Proof.
  intros run. subst run. split_and!.
  - assert (argv !! 1%nat = None ↔ (length argv < 2)%nat) as <-
      by (rewrite lookup_ge_None; lia).
    cli_cases argv; split; try done; congruence.
  - intros cmd'. unfold cli_commands. rewrite !not_elem_of_cons.
    cli_cases argv; (split; [try done|]);
      try (intros [[= <-] Hnot]; tauto);
      try (intros [= <-]; split; [done|]; split_and!; try done;
           apply not_elem_of_nil);
      try (by intros [? _]).
  - cli_cases argv; try done; intros Hno; by destruct (Hno _ eq_refl).
Qed.

Lemma remember_keeps_rows (now : Time) (content : string)
    (tags : option (list string)) (mem : gmap string memory_row) id row :
  mem !! id = Some row →
  ∃ row', (remember now content tags mem).1 !! id = Some row' ∧
          mem_content row' = mem_content row ∧
          mem_created_at row' = mem_created_at row.
Proof.
  intros Hrow. unfold remember. cbn [fst].
  destruct (mem !! mem_id_of content) as [old|] eqn:Hold.
  - destruct (decide (mem_id_of content = id)) as [<-|Hne].
    + rewrite lookup_insert_eq. eexists. split; [done|].
      rewrite Hrow in Hold. by injection Hold as <-.
    + rewrite lookup_insert_ne by done. eauto.
  - destruct (decide (mem_id_of content = id)) as [<-|Hne]; [congruence|].
    rewrite lookup_insert_ne by done. eauto.
Qed.

Lemma handle_tool_call_keeps_agents (c : tool_call) (db : DB) name row :
  agents db !! name = Some row →
  is_Some (agents (handle_tool_call c db).1 !! name).
Proof.
  intros Hrow. destruct c; simpl; eauto.
  - destruct (decide (name0 = name)) as [->|Hne].
    + rewrite lookup_insert_eq. eauto.
    + rewrite lookup_insert_ne by done. eauto.
  - destruct (lock_file_result now1 now2 path agent reason ttl_seconds db)
      as [(h & _ & ->) | ->]; eauto.
Qed.

(** What the command line cannot do.  It has no command for [mark_read],
    [ack_message] or [forget], and it never registers less: after any run
    every message is at its place exactly as it was, time stamps
    included, every remembered row is still there with its content and
    creation time, and every registered agent is still registered. *)
Theorem cli_never_marks_or_forgets (now1 now2 : Time) argv st :
  let st' := (cli now1 now2 argv st).1 in
  (∀ (i : nat) m, messages (store_db st) !! i = Some m →
                  messages (store_db st') !! i = Some m) ∧
  (∀ id row, store_memory st !! id = Some row →
     ∃ row', store_memory st' !! id = Some row' ∧
             mem_content row' = mem_content row ∧
             mem_created_at row' = mem_created_at row) ∧
  (∀ name row, agents (store_db st) !! name = Some row →
               is_Some (agents (store_db st') !! name)).
Proof.
  intros st'. subst st'.
  assert (∀ c, (∀ m, row_step c m = m) →
            ∀ (i : nat) m, messages (store_db st) !! i = Some m →
              messages (handle_tool_call c (store_db st)).1 !! i = Some m)
    as Hrows.
  { intros c Hc i m Hi.
    rewrite (handle_tool_call_lookup c _ i m Hi). by rewrite Hc. }
  split_and!.
  - intros i m Hi. cli_cases argv; try done; try (by apply Hrows).
    all: cbn [store_db].
    all: match goal with
         | Hcall : lock_file_call _ _ _ _ _ _ _ = Returns _ |- _ =>
             by apply lock_file_call_frame in Hcall as [-> _]
         end.
  - intros id row Hrow.
    cli_cases argv; cbn [store_memory]; eauto using remember_keeps_rows.
  - intros name row Hrow.
    cli_cases argv; cbn [store_db]; eauto using handle_tool_call_keeps_agents.
    all: match goal with
         | Hcall : lock_file_call _ _ _ _ _ _ _ = Returns _ |- _ =>
             apply lock_file_call_frame in Hcall as [_ ->]; eauto
         end.
Qed.
End command_line_properties.
